(** * Estimators of the active-inference notebooks

    A shallow embedding of the numerical core of the notebooks (closed-form
    MLE / MAP estimators, the grid posterior, the linear-Gaussian update, the
    factor-analysis EM loop, the normal-equation regression agent and the
    simulation environments), with the properties their description states.

    Numbers.  The notebooks compute with NumPy [float64] arrays.  Here a
    scalar is a real number: chapter 2 works over [R] of the Standard Library
    (it needs [exp], [ln], [sqrt] and [PI]); the matrix code of chapter 3 is
    written over an arbitrary real field [F] and uses MathComp matrices, so a
    dimension mismatch is excluded by typing.  Rounding, overflow, [nan] and
    [inf] are outside this model.

    Exceptions.  A call that can raise returns a [result]. *)

Set Warnings "-notation-overridden,-ambiguous-paths,-deprecated".
From HB Require Import structures.
From Stdlib Require Import Reals Lra Lia.

(** The Standard Library's [ring] and [field] on [R], under names that the
    algebra library loaded next does not take over. *)
Ltac r_ring := ring.
Ltac r_field := field.
Ltac r_lra := lra.
Ltac r_nra := nra.

From mathcomp Require Import boot order algebra.

Set Implicit Arguments.
Unset Strict Implicit.
Unset Printing Implicit Defensive.

(** ** Python results *)

Inductive exn : Set :=
  TypeError | ValueError | IndexError | AttributeError | LinAlgError.

Inductive result (A : Type) : Type :=
| Ok (a : A)
| Raise (e : exn).
Arguments Ok {A} a.
Arguments Raise {A} e.

(** A method body: it reads and writes the attributes of [self] (a state of
    type [S]) and either returns a value or raises.  The attributes written
    before a [raise] stay written, as in Python. *)
Definition py (S A : Type) : Type := S -> result A * S.

Definition ret {S A : Type} (a : A) : py S A := fun s => (Ok a, s).

Definition raise {S A : Type} (e : exn) : py S A := fun s => (Raise e, s).

Definition bind {S A B : Type} (c : py S A) (k : A -> py S B) : py S B :=
  fun s => match c s with
           | (Ok a, s') => k a s'
           | (Raise e, s') => (Raise e, s')
           end.

Definition get {S : Type} : py S S := fun s => (Ok s, s).

Definition modify {S : Type} (f : S -> S) : py S unit := fun s => (Ok tt, f s).

(** A library call that may raise, used inside a method. *)
Definition lift {S A : Type} (r : result A) : py S A := fun s => (r, s).

Notation "x <- c ;; k" := (bind c (fun x => k))
  (at level 61, c at next level, right associativity).
Notation "c ;;; k" := (bind c (fun _ => k))
  (at level 61, right associativity).

(** ** Chapter 2: scalar hidden state, arrays as sequences of reals *)

Module Ch2.

Local Open Scope R_scope.

(** [np.sum] and [np.mean] of a one-dimensional array.  A Python scalar is
    the one-element array. *)
Definition np_sum (a : seq R) : R := foldr Rplus 0 a.

Definition np_mean (a : seq R) : R := np_sum a / INR (size a).

(** [class LinearMaximumLikelihoodAgent] (8_analytic_map_mle_estimation). *)
Module LinearMaximumLikelihoodAgent.

Record params : Type := { beta_0 : R; beta_1 : R }.

Record t : Type := { prm : params; posterior_mode : option R }.

Definition init (p : params) : t :=
  {| prm := p; posterior_mode := None |}.

Definition infer_state (self : t) (y : seq R) : t :=
  {| prm := prm self;
     posterior_mode :=
       Some ((np_mean y - beta_0 (prm self)) / beta_1 (prm self)) |}.

End LinearMaximumLikelihoodAgent.

(** [class LinearMaximumAprioriAgent] (8_analytic_map_mle_estimation). *)
Module LinearMaximumAprioriAgent.

Record params : Type := { beta_0 : R; beta_1 : R; m_x : R }.

Record t : Type := { prm : params; posterior_mode : option R }.

Definition init (p : params) : t :=
  {| prm := p; posterior_mode := None |}.

Definition infer_state (self : t) (y : seq R) : t :=
  let p := prm self in
  {| prm := p;
     posterior_mode :=
       Some ((beta_1 p * (np_mean y - beta_0 p) + m_x p)
             / (beta_1 p ^ 2 + 1)) |}.

End LinearMaximumAprioriAgent.

(** [scipy.stats.norm.pdf(x, loc, scale)]: the standard density at
    [(x - loc) / scale], divided by [scale]. *)
Definition norm_pdf (x loc scale : R) : R :=
  exp (- (((x - loc) / scale) ^ 2) / 2) / sqrt (2 * PI) / scale.

(** [a.sum(axis=0)] of a two-dimensional array with [G] columns, given by
    its rows: the column sums (all zero when there is no row). *)
Definition sum_axis0 (G : nat) (rows : seq (seq R)) : seq R :=
  foldr (fun row acc => [seq ab.1 + ab.2 | ab <- zip row acc]) (nseq G 0) rows.

(** [a + b] of two one-dimensional arrays of the same shape. *)
Definition np_add (a b : seq R) : seq R := [seq ab.1 + ab.2 | ab <- zip a b].

(** [np.max(a)]: the largest entry; an empty array has none. *)
Definition np_max (a : seq R) : result R :=
  if a is v :: a' then Ok (foldl Rmax v a') else Raise ValueError.

(** [class ExactLinearAgent] (7_scaling_to_multiple_samples).  The batch [y]
    has shape [N x 1] and is given by its column; [x_range] is the grid. *)
Module ExactLinearAgent.

Record params : Type :=
  { beta_0 : R; beta_1 : R; std_y : R; m_x : R; s_x : R; x_range : seq R }.

Record t : Type :=
  { prm : params;
    log_likelihood : option (seq R);
    log_prior : option (seq R);
    gen_model : option (seq R);
    evidence : option (seq R);
    posterior : option (seq R);
    prior : option (seq R);
    log_gen_model : option (seq R) }.

Definition init (p : params) : t :=
  {| prm := p; log_likelihood := None; log_prior := None;
     gen_model := None; evidence := None; posterior := None;
     prior := None; log_gen_model := None |}.

Definition set_prior (v : seq R) (s : t) : t :=
  {| prm := prm s; log_likelihood := log_likelihood s;
     log_prior := log_prior s; gen_model := gen_model s;
     evidence := evidence s; posterior := posterior s;
     prior := Some v; log_gen_model := log_gen_model s |}.

Definition set_log_likelihood (v : seq R) (s : t) : t :=
  {| prm := prm s; log_likelihood := Some v;
     log_prior := log_prior s; gen_model := gen_model s;
     evidence := evidence s; posterior := posterior s;
     prior := prior s; log_gen_model := log_gen_model s |}.

Definition set_log_prior (v : seq R) (s : t) : t :=
  {| prm := prm s; log_likelihood := log_likelihood s;
     log_prior := Some v; gen_model := gen_model s;
     evidence := evidence s; posterior := posterior s;
     prior := prior s; log_gen_model := log_gen_model s |}.

Definition set_log_gen_model (v : seq R) (s : t) : t :=
  {| prm := prm s; log_likelihood := log_likelihood s;
     log_prior := log_prior s; gen_model := gen_model s;
     evidence := evidence s; posterior := posterior s;
     prior := prior s; log_gen_model := Some v |}.

Definition set_posterior (v : seq R) (s : t) : t :=
  {| prm := prm s; log_likelihood := log_likelihood s;
     log_prior := log_prior s; gen_model := gen_model s;
     evidence := evidence s; posterior := Some v;
     prior := prior s; log_gen_model := log_gen_model s |}.

(** [gm], applied to the whole grid. *)
Definition gm (p : params) (x : seq R) : seq R :=
  [seq beta_1 p * xi + beta_0 p | xi <- x].

Definition generative_model (y : seq R) (generating_function : seq R)
  : py t (seq R) :=
  self <- get ;;
  let p := prm self in
  let likelihood_i :=
    [seq [seq norm_pdf yn g (std_y p) | g <- generating_function]
    | yn <- y] in
  let pri := [seq norm_pdf xi (m_x p) (s_x p) | xi <- x_range p] in
  let ll := sum_axis0 (size generating_function)
              [seq [seq ln v | v <- row] | row <- likelihood_i] in
  let lp := [seq ln v | v <- pri] in
  modify (set_prior pri) ;;;
  modify (set_log_likelihood ll) ;;;
  modify (set_log_prior lp) ;;;
  ret (np_add ll lp).

Definition infer_state (y : seq R) : py t unit :=
  self <- get ;;
  let generating_function := gm (prm self) (x_range (prm self)) in
  lgm <- generative_model y generating_function ;;
  modify (set_log_gen_model lgm) ;;;
  m <- lift (np_max lgm) ;;
  modify (set_posterior [seq exp (v - m) | v <- lgm]).

End ExactLinearAgent.

(** The arrays that [generative_model] stores for the batch [y]. *)
Definition stored_log_likelihood (p : ExactLinearAgent.params) (y : seq R)
  : seq R :=
  let gf := ExactLinearAgent.gm p (ExactLinearAgent.x_range p) in
  sum_axis0 (size gf)
    [seq [seq ln v | v <- row]
    | row <- [seq [seq norm_pdf yn g (ExactLinearAgent.std_y p) | g <- gf]
             | yn <- y]].

Definition stored_prior (p : ExactLinearAgent.params) : seq R :=
  [seq norm_pdf xi (ExactLinearAgent.m_x p) (ExactLinearAgent.s_x p)
  | xi <- ExactLinearAgent.x_range p].

Definition stored_log_prior (p : ExactLinearAgent.params) : seq R :=
  [seq ln v | v <- stored_prior p].

Definition stored_log_gen_model (p : ExactLinearAgent.params) (y : seq R)
  : seq R :=
  np_add (stored_log_likelihood p y) (stored_log_prior p).

(** [m] is [max_j f j] over the indices [j < G]. *)
Definition is_max_of (G : nat) (f : nat -> R) (m : R) : Prop :=
  (exists2 j, (j < G)%N & f j = m) /\
  (forall j, (j < G)%N -> f j <= m).

(** The negative Gaussian log-likelihood of the batch [y] at the state [x],
    up to the additive constant that does not depend on [x]. *)
Definition neg_log_likelihood (b0 b1 sigma2 : R) (y : seq R) (x : R) : R :=
  np_sum [seq (yi - (b0 + b1 * x)) ^ 2 / (2 * sigma2) | yi <- y].

(** [N] clean observations of the true state [x_star]: each equals
    [beta_0 + beta_1 * x_star]. *)
Definition clean_batch (b0 b1 x_star : R) (N : nat) : seq R :=
  nseq N (b0 + b1 * x_star).

(** "The MAP effect vanishes with more data", read on the closed-form
    agents: on clean batches the distance between the MAP and the MLE
    estimate eventually stays below every positive bound. *)
Definition map_gap_vanishes
    (p : LinearMaximumAprioriAgent.params) (x_star : R) : Prop :=
  let b0 := LinearMaximumAprioriAgent.beta_0 p in
  let b1 := LinearMaximumAprioriAgent.beta_1 p in
  forall eps : R, 0 < eps ->
  exists N0 : nat, forall N : nat, (N0 <= N)%N -> (0 < N)%N ->
  forall x_map x_mle : R,
    LinearMaximumAprioriAgent.posterior_mode
      (LinearMaximumAprioriAgent.infer_state
         (LinearMaximumAprioriAgent.init p) (clean_batch b0 b1 x_star N))
    = Some x_map ->
    LinearMaximumLikelihoodAgent.posterior_mode
      (LinearMaximumLikelihoodAgent.infer_state
         (LinearMaximumLikelihoodAgent.init
            (LinearMaximumLikelihoodAgent.Build_params b0 b1))
         (clean_batch b0 b1 x_star N))
    = Some x_mle ->
    Rabs (x_map - x_mle) < eps.

(** [c] lies strictly between [a] and [b]. *)
Definition strictly_between (a b c : R) : Prop :=
  (a < c < b) \/ (b < c < a).

End Ch2.

(** ** Chapter 3: vectors and matrices over a real field *)

Module Ch3.

Import GRing.Theory Num.Theory.
Local Open Scope ring_scope.

Section Arrays.

Variable F : realFieldType.

(** [numpy.linalg.inv]: the inverse, or [LinAlgError] for a singular
    matrix. *)
Definition np_inv (n : nat) (A : 'M[F]_n) : result 'M[F]_n :=
  if A \in unitmx then Ok (invmx A) else Raise LinAlgError.

(** [np.mean(y, axis=0)] of an array with [n] rows: the mean of the rows,
    used as a column vector by [@]. *)
Definition np_mean_axis0 (n c : nat) (y : 'M[F]_(n, c)) : 'cV[F]_c :=
  \col_k ((\sum_i y i k) / n%:R).

(** [np.mean(a, axis=1)]: the mean of the columns. *)
Definition np_mean_axis1 (c n : nat) (a : 'M[F]_(c, n)) : 'cV[F]_c :=
  \col_i ((\sum_k a i k) / n%:R).

(** [np.cov(Y)]: each row of [Y] is a variable, each column an observation;
    the rows are centred and the products are divided by [N - 1]. *)
Definition np_cov (d n : nat) (Y : 'M[F]_(d, n)) : 'M[F]_d :=
  let Yc := \matrix_(i, k) (Y i k - np_mean_axis1 Y i 0) in
  (n.-1)%:R^-1 *: (Yc *m Yc^T).

(** [diag(diag(A))]: the diagonal of [A] as a vector, then the diagonal
    matrix of that vector. *)
Definition np_diag (n : nat) (A : 'M[F]_n) : 'rV[F]_n := \row_i A i i.

Definition diag_diag (n : nat) (A : 'M[F]_n) : 'M[F]_n := diag_mx (np_diag A).

(** [np.insert(X_star, 0, 1, axis=1)]: a column of ones in front. *)
Definition insert_ones (n c : nat) (X_star : 'M[F]_(n, c)) : 'M[F]_(n, 1 + c) :=
  row_mx (const_mx 1) X_star.

(** An array cell [a[j] = v] and its read [a[j]], where [a] holds one item
    per iteration; an index past the end raises. *)
Definition store (T : Type) (dflt : T) (a : seq T) (j : nat) (v : T)
  : result (seq T) :=
  if (j < size a)%N then Ok (set_nth dflt a j v) else Raise IndexError.

Definition load (T : Type) (dflt : T) (a : seq T) (j : nat) : result T :=
  if (j < size a)%N then Ok (nth dflt a j) else Raise IndexError.

(** [for j in js: body(j)]. *)
Fixpoint for_each (S : Type) (js : seq nat) (body : nat -> py S unit)
  : py S unit :=
  if js is j :: js' then body j ;;; for_each js' body else ret tt.

End Arrays.

(** [class FactorAnalysisAgent] (part_001, "Inferring an unknown vector").
    [C] is the dimension of the state; the batch [y] has one observation per
    row.  [multivariate_normal.pdf] over the plotting grid is SciPy's; it is
    the parameter [mvn_pdf], with values in [P], and may raise. *)
Module FactorAnalysisAgent.
Section Agent.

Variable F : realFieldType.
Variables (C : nat) (Grid P : Type).
Variable mvn_pdf : Grid -> 'cV[F]_C -> 'M[F]_C -> result P.

Record params : Type :=
  { cov_x : 'M[F]_C; cov_y : 'M[F]_C; mu_x : 'cV[F]_C; grid : Grid; N : nat }.

Record t : Type :=
  { prm : params;
    cov_posterior : option 'M[F]_C;
    mean_posterior : option 'cV[F]_C;
    posterior : option P }.

Definition init (p : params) : t :=
  {| prm := p; cov_posterior := None; mean_posterior := None;
     posterior := None |}.

Definition set_cov_posterior (v : 'M[F]_C) (s : t) : t :=
  {| prm := prm s; cov_posterior := Some v;
     mean_posterior := mean_posterior s; posterior := posterior s |}.

Definition set_mean_posterior (v : 'cV[F]_C) (s : t) : t :=
  {| prm := prm s; cov_posterior := cov_posterior s;
     mean_posterior := Some v; posterior := posterior s |}.

Definition set_posterior (v : P) (s : t) : t :=
  {| prm := prm s; cov_posterior := cov_posterior s;
     mean_posterior := mean_posterior s; posterior := Some v |}.

Definition infer_states (n : nat) (y : 'M[F]_(n, C)) : py t unit :=
  self <- get ;;
  let p := prm self in
  Pi_x <- lift (np_inv (cov_x p)) ;;
  Pi_y <- lift (np_inv (cov_y p)) ;;
  cov_post <- lift (np_inv (Pi_x + (N p)%:R *: Pi_y)) ;;
  modify (set_cov_posterior cov_post) ;;;
  let mean_post :=
    cov_post *m (Pi_y *m ((N p)%:R *: np_mean_axis0 y) + Pi_x *m mu_x p) in
  modify (set_mean_posterior mean_post) ;;;
  post <- lift (mvn_pdf (grid p) mean_post cov_post) ;;
  modify (set_posterior post).

End Agent.
End FactorAnalysisAgent.

(** [class FactorAnalysisEMAgent] (6_factor_analysis_em).  The class body
    reads the notebook's module-level [C] and [N]; they are the dimension the
    agent is built with and the number of columns of the [D x N] matrix [Y]
    handed to [run_EM].  Every per-iteration array has [J] cells. *)
Module FactorAnalysisEMAgent.
Section Agent.

Variable F : realFieldType.
Variables (C D N : nat).

Record params : Type :=
  { J : nat; Theta_init : 'M[F]_(D, C); cov_y_init : 'M[F]_D }.

Record t : Type :=
  { prm : params;
    posterior_mean : seq 'cV[F]_C;
    posterior_cov : seq 'M[F]_C;
    Theta : seq 'M[F]_(D, C);
    cov_y : seq 'M[F]_D;
    posterior_mean_s : option 'M[F]_(C, N);
    S : option 'M[F]_D }.

Definition set_posterior_mean (v : seq 'cV[F]_C) (s : t) : t :=
  {| prm := prm s; posterior_mean := v; posterior_cov := posterior_cov s;
     Theta := Theta s; cov_y := cov_y s;
     posterior_mean_s := posterior_mean_s s; S := S s |}.

Definition set_posterior_cov (v : seq 'M[F]_C) (s : t) : t :=
  {| prm := prm s; posterior_mean := posterior_mean s; posterior_cov := v;
     Theta := Theta s; cov_y := cov_y s;
     posterior_mean_s := posterior_mean_s s; S := S s |}.

Definition set_Theta (v : seq 'M[F]_(D, C)) (s : t) : t :=
  {| prm := prm s; posterior_mean := posterior_mean s;
     posterior_cov := posterior_cov s; Theta := v; cov_y := cov_y s;
     posterior_mean_s := posterior_mean_s s; S := S s |}.

Definition set_cov_y (v : seq 'M[F]_D) (s : t) : t :=
  {| prm := prm s; posterior_mean := posterior_mean s;
     posterior_cov := posterior_cov s; Theta := Theta s; cov_y := v;
     posterior_mean_s := posterior_mean_s s; S := S s |}.

Definition set_posterior_mean_s (v : 'M[F]_(C, N)) (s : t) : t :=
  {| prm := prm s; posterior_mean := posterior_mean s;
     posterior_cov := posterior_cov s; Theta := Theta s; cov_y := cov_y s;
     posterior_mean_s := Some v; S := S s |}.

Definition set_S (v : 'M[F]_D) (s : t) : t :=
  {| prm := prm s; posterior_mean := posterior_mean s;
     posterior_cov := posterior_cov s; Theta := Theta s; cov_y := cov_y s;
     posterior_mean_s := posterior_mean_s s; S := Some v |}.

(** An attribute that is read before any method has set it. *)
Definition attr (T : Type) (a : option T) : result T :=
  if a is Some v then Ok v else Raise AttributeError.

(** [__init__]: arrays of zeros, then the two initial parameters in cell
    [0]. *)
Definition init (p : params) : result t :=
  let self :=
    {| prm := p;
       posterior_mean := nseq (J p) 0;
       posterior_cov := nseq (J p) 0;
       Theta := nseq (J p) 0;
       cov_y := nseq (J p) 0;
       posterior_mean_s := None; S := None |} in
  match store 0 (Theta self) 0 (Theta_init p) with
  | Raise e => Raise e
  | Ok th =>
      match store 0 (cov_y self) 0 (cov_y_init p) with
      | Raise e => Raise e
      | Ok cy => Ok (set_cov_y cy (set_Theta th self))
      end
  end.

(** E-step. *)
Definition _infer_states (Y : 'M[F]_(D, N)) (j : nat) : py t unit :=
  self <- get ;;
  Th <- lift (load 0 (Theta self) j) ;;
  cy <- lift (load 0 (cov_y self) j) ;;
  iv <- lift (np_inv (Th *m Th^T + cy)) ;;
  let beta := Th^T *m iv in
  modify (set_posterior_mean_s (beta *m Y)) ;;;
  pc <- lift (store 0 (posterior_cov self) j (1%:M - beta *m Th)) ;;
  modify (set_posterior_cov pc) ;;;
  pm <- lift (store 0 (posterior_mean self) j (np_mean_axis1 (beta *m Y))) ;;
  modify (set_posterior_mean pm).

(** M-step. *)
Definition _learn_parameters (Y : 'M[F]_(D, N)) (j : nat) : py t unit :=
  self <- get ;;
  pms <- lift (attr (posterior_mean_s self)) ;;
  let delta := Y *m pms^T in
  pcj <- lift (load 0 (posterior_cov self) j) ;;
  let gamma := pms *m pms^T + N%:R *: pcj in
  if (j + 1 < J (prm self))%N then
    ig <- lift (np_inv gamma) ;;
    th <- lift (store 0 (Theta self) (j + 1) (delta *m ig)) ;;
    modify (set_Theta th) ;;;
    self1 <- get ;;
    Sv <- lift (attr (S self1)) ;;
    th1 <- lift (load 0 (Theta self1) (j + 1)) ;;
    cy <- lift (store 0 (cov_y self1) (j + 1)
                  (diag_diag (Sv - N%:R^-1 *: (th1 *m delta^T)))) ;;
    modify (set_cov_y cy)
  else ret tt.

Definition run_EM (Y : 'M[F]_(D, N)) : py t unit :=
  modify (set_S (np_cov Y)) ;;;
  self <- get ;;
  for_each (iota 0 (J (prm self)))
    (fun j => _infer_states Y j ;;; _learn_parameters Y j).

End Agent.
End FactorAnalysisEMAgent.

(** The EM recurrence in the words of its description: from the parameters
    [(Theta, cov_y)] of an iteration to those of the next. *)
Section EMSpec.

Variable F : realFieldType.
Variables (C D N : nat).
Variable Y : 'M[F]_(D, N).

Definition em_beta (Th : 'M[F]_(D, C)) (cy : 'M[F]_D) : 'M[F]_(C, D) :=
  Th^T *m invmx (Th *m Th^T + cy).

Definition em_posterior_mean_s (Th : 'M[F]_(D, C)) (cy : 'M[F]_D)
  : 'M[F]_(C, N) :=
  em_beta Th cy *m Y.

Definition em_posterior_cov (Th : 'M[F]_(D, C)) (cy : 'M[F]_D) : 'M[F]_C :=
  1%:M - em_beta Th cy *m Th.

Definition em_delta (Th : 'M[F]_(D, C)) (cy : 'M[F]_D) : 'M[F]_(D, C) :=
  Y *m (em_posterior_mean_s Th cy)^T.

Definition em_gamma (Th : 'M[F]_(D, C)) (cy : 'M[F]_D) : 'M[F]_C :=
  em_posterior_mean_s Th cy *m (em_posterior_mean_s Th cy)^T
  + N%:R *: em_posterior_cov Th cy.

Definition em_next (par : 'M[F]_(D, C) * 'M[F]_D) : 'M[F]_(D, C) * 'M[F]_D :=
  let Th' := em_delta par.1 par.2 *m invmx (em_gamma par.1 par.2) in
  (Th', diag_diag (np_cov Y - N%:R^-1 *: (Th' *m (em_delta par.1 par.2)^T))).

Definition em_params (Th0 : 'M[F]_(D, C)) (cy0 : 'M[F]_D) (j : nat)
  : 'M[F]_(D, C) * 'M[F]_D :=
  iter j em_next (Th0, cy0).

(** Every matrix that [J] iterations invert is invertible. *)
Definition em_invertible (Th0 : 'M[F]_(D, C)) (cy0 : 'M[F]_D) (J : nat)
  : Prop :=
  forall j, (j < J)%N ->
    let par := em_params Th0 cy0 j in
    par.1 *m par.1^T + par.2 \in unitmx /\
    ((j + 1 < J)%N -> em_gamma par.1 par.2 \in unitmx).

(** What holds of the agent before iteration [k] of [run_EM]: the
    parameters of the iterations up to [k] and the posteriors of the
    iterations before [k] are those of the recurrence. *)
Definition em_state_upto (p : FactorAnalysisEMAgent.params F C D) (k : nat)
    (self : FactorAnalysisEMAgent.t F C D N) : Prop :=
  let J := FactorAnalysisEMAgent.J p in
  let par := em_params (FactorAnalysisEMAgent.Theta_init p)
               (FactorAnalysisEMAgent.cov_y_init p) in
  [/\ FactorAnalysisEMAgent.prm self = p
       /\ FactorAnalysisEMAgent.S self = Some (np_cov Y),
      [/\ size (FactorAnalysisEMAgent.posterior_mean self) = J,
          size (FactorAnalysisEMAgent.posterior_cov self) = J,
          size (FactorAnalysisEMAgent.Theta self) = J
        & size (FactorAnalysisEMAgent.cov_y self) = J],
      forall j, (j <= k)%N -> (j < J)%N ->
        nth 0 (FactorAnalysisEMAgent.Theta self) j = (par j).1 /\
        nth 0 (FactorAnalysisEMAgent.cov_y self) j = (par j).2
    & forall j, (j < k)%N -> (j < J)%N ->
        nth 0 (FactorAnalysisEMAgent.posterior_cov self) j
        = em_posterior_cov (par j).1 (par j).2 /\
        nth 0 (FactorAnalysisEMAgent.posterior_mean self) j
        = np_mean_axis1 (em_posterior_mean_s (par j).1 (par j).2)].

End EMSpec.

(** [class MultipleLinearRegressionAgent] (3a_supervised_linear_regression).
    [c] is the number of features.  [numpy.linalg.pinv] is the parameter
    [pinv]. *)
Module MultipleLinearRegressionAgent.
Section Agent.

Variable F : realFieldType.
Variable pinv : forall m n : nat, 'M[F]_(m, n) -> 'M[F]_(n, m).
Variable c : nat.

Record t : Type :=
  { theta : option 'cV[F]_(1 + c);
    y_pred : option {k : nat & 'cV[F]_k} }.

Definition init : t := {| theta := None; y_pred := None |}.

Definition set_theta (v : 'cV[F]_(1 + c)) (s : t) : t :=
  {| theta := Some v; y_pred := y_pred s |}.

Definition set_y_pred (k : nat) (v : 'cV[F]_k) (s : t) : t :=
  {| theta := theta s; y_pred := Some (existT _ k v) |}.

Definition mle_theta (n : nat) (X : 'M[F]_(n, 1 + c)) (y : 'cV[F]_n)
  : 'cV[F]_(1 + c) :=
  pinv X *m y.

Definition build_data_matrix (n : nat) (X_star : 'M[F]_(n, c))
  : 'M[F]_(n, 1 + c) :=
  insert_ones X_star.

Definition learn_parameters (n : nat) (X_star : 'M[F]_(n, c)) (y : 'cV[F]_n)
  : py t unit :=
  let X := build_data_matrix X_star in
  modify (set_theta (mle_theta X y)).

Definition _generating_function (k : nat) (X : 'M[F]_(k, 1 + c))
  : py t 'cV[F]_k :=
  self <- get ;;
  if theta self is Some th then ret (X *m th) else raise AttributeError.

Definition predict (k : nat) (X_star_new : 'M[F]_(k, c)) : py t unit :=
  let X := build_data_matrix X_star_new in
  yp <- _generating_function X ;;
  modify (set_y_pred yp).

End Agent.
End MultipleLinearRegressionAgent.

(** The reference of the comparison, scikit-learn's [LinearRegression] with
    an intercept: a fitted model is an intercept and a coefficient vector,
    [predict] is [X @ coef_ + intercept_], and [fit] returns a model with the
    least residual sum of squares on the training data. *)
Section LeastSquaresReference.

Variable F : realFieldType.
Variable c : nat.

Record linear_model : Type := { intercept_ : F; coef_ : 'cV[F]_c }.

Definition lr_predict (m : linear_model) (k : nat) (X : 'M[F]_(k, c))
  : 'cV[F]_k :=
  X *m coef_ m + const_mx (intercept_ m).

Definition sum_sq (n : nat) (u : 'cV[F]_n) : F := \sum_i (u i 0) ^+ 2.

Definition residual_sum_sq (n : nat) (X : 'M[F]_(n, c)) (y : 'cV[F]_n)
    (m : linear_model) : F :=
  sum_sq (y - lr_predict m X).

Definition least_squares_fit (n : nat) (X : 'M[F]_(n, c)) (y : 'cV[F]_n)
    (m : linear_model) : Prop :=
  forall m' : linear_model, residual_sum_sq X y m <= residual_sum_sq X y m'.

(** [np.insert(lr.coef_, 0, lr.intercept_)]. *)
Definition lr_params (m : linear_model) : 'cV[F]_(1 + c) :=
  col_mx (intercept_ m)%:M (coef_ m).

(** The model whose parameter vector is [th]. *)
Definition model_of (th : 'cV[F]_(1 + c)) : linear_model :=
  {| intercept_ := usubmx th 0 0; coef_ := dsubmx th |}.

End LeastSquaresReference.

(** The closed form of the pseudo-inverse of a matrix of full column rank;
    it stands for [pinv] where a concrete function is needed. *)
Definition normal_pinv (F : realFieldType) (m n : nat) (A : 'M[F]_(m, n))
  : 'M[F]_(n, m) :=
  invmx (A^T *m A) *m A^T.

(** The four conditions that make [P] the Moore-Penrose pseudo-inverse of
    [A], which is what [numpy.linalg.pinv] computes. *)
Definition penrose (F : realFieldType) (m n : nat)
    (A : 'M[F]_(m, n)) (P : 'M[F]_(n, m)) : Prop :=
  [/\ A *m P *m A = A, P *m A *m P = P,
      (A *m P)^T = A *m P & (P *m A)^T = P *m A].

(** ** The simulation environments

    The notebooks draw from NumPy's global generator.  Here the generator is
    a counter of the draws made so far, threaded through [generate], and the
    value of each draw is given by an oracle: [mvn_rvs t cov] is what
    [multivariate_normal.rvs(mean=zeros(dim), cov=cov)] returns when it is
    draw number [t], [normal t scale] what [np.random.normal(loc=0,
    scale=scale)] returns. *)

(** [class StaticEnvironment] (part_001, "Inferring an unknown vector"). *)
Module StaticEnvironment.
Section Env.

Variable F : realFieldType.
Variables (C D : nat).
Variable mvn_rvs : nat -> forall d : nat, 'M[F]_d -> 'cV[F]_d.

Record params : Type :=
  { Theta_star : 'M[F]_(D, C);
    cov_x_star : 'M[F]_C;
    cov_y_star : 'M[F]_D;
    b_star : 'cV[F]_D }.

Record t : Type := { prm : params }.

Definition _noise (d : nat) (cov : 'M[F]_d) : py (t * nat) 'cV[F]_d :=
  fun s => (Ok (mvn_rvs s.2 cov), (s.1, s.2.+1)).

Definition _generating_function (p : params) (x_star : 'cV[F]_C) : 'cV[F]_D :=
  Theta_star p *m x_star + b_star p.

Definition generate (x_star : 'cV[F]_C) : py (t * nat) 'cV[F]_D :=
  s <- get ;;
  let p := prm s.1 in
  x_noise <- _noise (cov_x_star p) ;;
  y_noise <- _noise (cov_y_star p) ;;
  let x_star_noise := x_star + x_noise in
  ret (_generating_function p x_star_noise + y_noise).

(** "[y = f(x; theta) + epsilon] with a single noise term on the
    observation, no other perturbation of the input state and no side
    effect on the environment": the value returned is the generating
    function at [x_star] itself plus one draw of the observation noise, and
    the environment is as before. *)
Definition single_noise_term : Prop :=
  forall (env : t) (x_star : 'cV[F]_C) (g : nat),
  exists tick : nat,
    (generate x_star (env, g)).1
    = Ok (_generating_function (prm env) x_star
          + mvn_rvs tick (cov_y_star (prm env)))
    /\ (generate x_star (env, g)).2.1 = env.

End Env.
End StaticEnvironment.

(** [class StaticEnvironment] (6_factor_analysis_em): the same, but the
    perturbed state is kept in the attribute [x_star_noise]. *)
Module StaticEnvironmentEM.
Section Env.

Variable F : realFieldType.
Variables (C D : nat).
Variable mvn_rvs : nat -> forall d : nat, 'M[F]_d -> 'cV[F]_d.

Record params : Type :=
  { Theta_star : 'M[F]_(D, C);
    cov_x_star : 'M[F]_C;
    cov_y_star : 'M[F]_D;
    b_star : 'cV[F]_D }.

Record t : Type := { prm : params; x_star_noise : option 'cV[F]_C }.

Definition set_x_star_noise (v : 'cV[F]_C) (s : t * nat) : t * nat :=
  ({| prm := prm s.1; x_star_noise := Some v |}, s.2).

Definition _noise (d : nat) (cov : 'M[F]_d) : py (t * nat) 'cV[F]_d :=
  fun s => (Ok (mvn_rvs s.2 cov), (s.1, s.2.+1)).

Definition _generating_function (p : params) (x_star : 'cV[F]_C) : 'cV[F]_D :=
  Theta_star p *m x_star + b_star p.

Definition generate (x_star : 'cV[F]_C) : py (t * nat) 'cV[F]_D :=
  s <- get ;;
  let p := prm s.1 in
  x_noise <- _noise (cov_x_star p) ;;
  y_noise <- _noise (cov_y_star p) ;;
  modify (set_x_star_noise (x_star + x_noise)) ;;;
  s' <- get ;;
  if x_star_noise s'.1 is Some xn
  then ret (_generating_function p xn + y_noise)
  else raise AttributeError.

Definition single_noise_term : Prop :=
  forall (env : t) (x_star : 'cV[F]_C) (g : nat),
  exists tick : nat,
    (generate x_star (env, g)).1
    = Ok (_generating_function (prm env) x_star
          + mvn_rvs tick (cov_y_star (prm env)))
    /\ (generate x_star (env, g)).2.1 = env.

End Env.
End StaticEnvironmentEM.

(** [class StaticEnvironment] (part_000 and 3a_supervised_linear_regression):
    a scalar observation of a state with [c] features. *)
Module StaticEnvironmentRegression.
Section Env.

Variable F : realFieldType.
Variable c : nat.
Variable normal : nat -> F -> F.

Record params : Type := { theta_star : 'cV[F]_(1 + c); y_star_std : F }.

Record t : Type := { prm : params }.

Definition _noise : py (t * nat) F :=
  fun s => (Ok (normal s.2 (y_star_std (prm s.1))), (s.1, s.2.+1)).

Definition _generating_function (p : params) (x_star : 'cV[F]_(1 + c)) : F :=
  (x_star^T *m theta_star p) 0 0.

Definition generate (x_star : 'cV[F]_c) : py (t * nat) F :=
  s <- get ;;
  let x_star1 : 'cV[F]_(1 + c) := col_mx (const_mx 1) x_star in
  noise <- _noise ;;
  ret (_generating_function (prm s.1) x_star1 + noise).

End Env.
End StaticEnvironmentRegression.

(** [class MultipleLinearRegressionAgent] of part_000 ("Multiple linear
    regression"), together with the module-level [build_data_matrix] that
    its [learn_parameters] calls.  A call of a Python function checks the
    number of positional arguments against the parameters of the [def]
    before the body runs. *)
Module MultipleLinearRegressionAgent0.
Section Agent.

Variable F : realFieldType.
Variable pinv : forall m n : nat, 'M[F]_(m, n) -> 'M[F]_(n, m).
Variable c : nat.

Record t : Type := { theta : option 'cV[F]_(1 + c) }.

Definition init : t := {| theta := None |}.

Definition set_theta (v : 'cV[F]_(1 + c)) (s : t) : t := {| theta := Some v |}.

(** The values passed around: the agent, or a two-dimensional array. *)
Inductive pyval : Type :=
| PySelf (self : t)
| PyArray (n k : nat) (A : 'M[F]_(n, k)).

Record pyfun : Type :=
  { n_params : nat; body : seq pyval -> result pyval }.

Definition call (f : pyfun) (args : seq pyval) : result pyval :=
  if size args == n_params f then body f args else Raise TypeError.

(** [def build_data_matrix(X_star)], at module level. *)
Definition build_data_matrix : pyfun :=
  {| n_params := 1;
     body := fun args =>
       match args with
       | [:: PyArray n k X_star] => Ok (PyArray (insert_ones X_star))
       | _ => Raise ValueError
       end |}.

(** [def build_data_matrix(self, X_star)], the method of the class. *)
Definition build_data_matrix_method : pyfun :=
  {| n_params := 2;
     body := fun args =>
       match args with
       | [:: PySelf _; PyArray n k X_star] => Ok (PyArray (insert_ones X_star))
       | _ => Raise ValueError
       end |}.

(** Using a value as an [n x k] array. *)
Definition as_array (n k : nat) (v : pyval) : result 'M[F]_(n, k) :=
  match v with
  | PySelf _ => Raise TypeError
  | PyArray n' k' A =>
      match n' =P n, k' =P k with
      | ReflectT en, ReflectT ek => Ok (castmx (en, ek) A)
      | _, _ => Raise ValueError
      end
  end.

Definition mle_theta (n : nat) (X : 'M[F]_(n, 1 + c)) (y : 'cV[F]_n)
  : 'cV[F]_(1 + c) :=
  pinv X *m y.

Definition learn_parameters (n : nat) (X_star : 'M[F]_(n, c)) (y : 'cV[F]_n)
  : py t unit :=
  self <- get ;;
  Xv <- lift (call build_data_matrix [:: PySelf self; PyArray X_star]) ;;
  X <- lift (as_array n (1 + c) Xv) ;;
  modify (set_theta (mle_theta X y)).

End Agent.
End MultipleLinearRegressionAgent0.

Section Spec.

Variable F : realFieldType.

(** [B] is the inverse of [A]. *)
Definition is_inverse (n : nat) (A B : 'M[F]_n) : Prop :=
  A *m B = 1%:M /\ B *m A = 1%:M.

(** The sample mean of the observations, the rows of [y]. *)
Definition sample_mean (n c : nat) (y : 'M[F]_(n, c)) : 'cV[F]_c :=
  n%:R^-1 *: (\sum_i (row i y)^T).

End Spec.

(** ** Concrete inputs over the rationals *)

(** An oracle whose every draw is the vector of ones. *)
Definition ones_rvs (t : nat) (d : nat) (cov : 'M[rat]_d) : 'cV[rat]_d :=
  const_mx 1.

(** A training set of two samples with one feature, which takes the value
    [0] on the first sample and [1] on the second. *)
Definition two_samples : 'M[rat]_(2, 1) := \matrix_(i, j) (i : nat)%:R.

(** Two samples of a one-dimensional channel, both equal to [1]. *)
Definition two_ones : 'M[rat]_(1, 2) := const_mx 1.

End Ch3.

(** ** Further code of the chapter 2 notebooks *)

Module Ch2b.

Import Ch2.
Local Open Scope R_scope.

(** [ge] and [ge_inv] (noisy_generative_process): the generating function
    and the state that generated an observation. *)
Definition ge (x_star beta_0_star beta_1_star : R) : R :=
  beta_1_star * x_star + beta_0_star.

Definition ge_inv (y beta_0_star beta_1_star : R) : R :=
  (y - beta_0_star) / beta_1_star.

(** [generating_function], applied to the grid
    (7_scaling_to_multiple_samples). *)
Definition generating_function (beta_0 beta_1 : R) (x : seq R) : seq R :=
  [seq beta_1 * xi + beta_0 | xi <- x].

(** [norm.pdf(y, loc=mu_y, scale=scale)] for a batch [y] of shape [N x 1]
    and a grid [mu_y]: one row per sample. *)
Definition likelihood_broadcast (y mu_y : seq R) (scale : R) : seq (seq R) :=
  [seq [seq norm_pdf yn m scale | m <- mu_y] | yn <- y].

(** The "equivalent statement" of the notebook: an array of zeros of shape
    [N x grid_size], filled row by row; [N] is the module-level sample
    count. *)
Definition likelihood_loop (N : nat) (y mu_y : seq R) (scale : R)
  : py (seq (seq R)) unit :=
  modify (fun _ => nseq N (nseq (size mu_y) 0)) ;;;
  Ch3.for_each (iota 0 N)
    (fun i =>
       yi <- lift (Ch3.load 0 y i) ;;
       a <- get ;;
       a' <- lift (Ch3.store [::] a i [seq norm_pdf yi m scale | m <- mu_y]) ;;
       modify (fun _ => a')).

(** [a.prod(axis=0)] of a two-dimensional array with [G] columns. *)
Definition prod_axis0 (G : nat) (rows : seq (seq R)) : seq R :=
  foldr (fun row acc => [seq ab.1 * ab.2 | ab <- zip row acc]) (nseq G 1) rows.

(** The product of the entries of a one-dimensional array. *)
Definition np_prod (a : seq R) : R := foldr Rmult 1 a.

(** [rmse] (3a_supervised_linear_regression), on two arrays of the same
    shape. *)
Definition rmse (y_true y_pred : seq R) : R :=
  sqrt (np_mean [seq (ab.1 - ab.2) ^ 2 | ab <- zip y_pred y_true]).

End Ch2b.

(** ** Further code of the background notebook: the sampled point *)

Module Background.

Import GRing.Theory Num.Theory Order.Theory.
Local Open Scope ring_scope.

Section PointY.

Variable F : realFieldType.

(** [np.median(a)]: the middle entry of the sorted array when the length is
    odd, the mean of the two middle entries when it is even. *)
Definition np_median (a : seq F) : F :=
  let s := sort <=%O a in
  let n := size a in
  if odd n then nth 0 s n./2
  else (nth 0 s (n./2).-1 + nth 0 s n./2) / 2%:R.

(** A Python [dict] with numbers as keys, as the list of its items in
    insertion order.  [d[k] = v] replaces the value of a key that is
    present and appends a new item otherwise; [d[k]] is [None] where Python
    raises [KeyError]. *)
Fixpoint dict_set (d : seq (F * F)) (k v : F) : seq (F * F) :=
  match d with
  | [::] => [:: (k, v)]
  | (k', v') :: d' =>
      if k' == k then (k', v) :: d' else (k', v') :: dict_set d' k v
  end.

Fixpoint dict_get (d : seq (F * F)) (k : F) : option F :=
  match d with
  | [::] => None
  | (k', v') :: d' => if k' == k then Some v' else dict_get d' k
  end.

(** [dict(pairs)]: the pairs are inserted from first to last. *)
Definition dict_of (pairs : seq (F * F)) : seq (F * F) :=
  foldl (fun d kv => dict_set d kv.1 kv.2) [::] pairs.

(** [point_y = dict(zip(x_star, y))[np.median(x_star)]]. *)
Definition point_y (x_star y : seq F) : option F :=
  dict_get (dict_of (zip x_star y)) (np_median x_star).

End PointY.

End Background.

(** ** Further code of the chapter 3 notebooks *)

Module Ch3b.

Import Ch3 GRing.Theory Num.Theory.
Local Open Scope ring_scope.

(** A method of the environment, run where the state also holds an array of
    the cell. *)
Definition on_env (S1 S2 A : Type) (c : py S1 A) : py (S1 * S2) A :=
  fun s => let (r, s1) := c s.1 in (r, (s1, s.2)).

Section Sampling.

Variable F : realFieldType.
Variables (C D : nat).
Variable mvn_rvs : nat -> forall d : nat, 'M[F]_d -> 'cV[F]_d.

(** The sampling cell of part_001: [y = np.zeros((N, D))], then
    [for idx in range(N): y[idx] = env.generate(x_star)].  The state is the
    environment with the draw counter, and the array [y]. *)
Definition generate_batch (N : nat) (x_star : 'cV[F]_C)
  : py ((StaticEnvironment.t F C D * nat) * seq 'cV[F]_D) unit :=
  modify (fun s => (s.1, nseq N 0)) ;;;
  for_each (iota 0 N)
    (fun idx =>
       v <- on_env (StaticEnvironment.generate mvn_rvs x_star) ;;
       s <- get ;;
       a <- lift (store 0 s.2 idx v) ;;
       modify (fun s' => (s'.1, a))).

(** The observation built from the draws number [t] and [t + 1]. *)
Definition sample_at (p : StaticEnvironment.params F C D)
    (x_star : 'cV[F]_C) (t : nat) : 'cV[F]_D :=
  StaticEnvironment._generating_function p
    (x_star + mvn_rvs t (StaticEnvironment.cov_x_star p))
  + mvn_rvs t.+1 (StaticEnvironment.cov_y_star p).

End Sampling.

(** Two samples of one channel with mean zero. *)
Definition centred_pair : 'M[rat]_(1, 2) :=
  \row_k (if k == 0 then 1 else -1).

End Ch3b.

(** * Properties *)

Section Ch2_closed_form.

Import Ch2.
Local Open Scope R_scope.

Lemma np_sum_cons (v : R) (a : seq R) : np_sum (v :: a) = v + np_sum a.
Proof. by []. Qed.

Lemma size_pos_INR (T : Type) (a : seq T) : a <> [::] -> 0 < INR (size a).
Proof.
  case: a => [|v a] // _.
  rewrite [size _]/= S_INR.
  have := pos_INR (size a).
  r_lra.
Qed.

(** Moving every sample by the same amount [d]. *)
Lemma sum_sq_shift (y : seq R) (c d : R) :
  np_sum [seq (yi - (c + d)) ^ 2 | yi <- y] =
  np_sum [seq (yi - c) ^ 2 | yi <- y]
  - 2 * d * (np_sum y - INR (size y) * c) + INR (size y) * d ^ 2.
Proof.
  elim: y => [|v y IH].
  - rewrite /=. r_ring.
  - rewrite !map_cons !np_sum_cons IH (_ : size (v :: y) = (size y).+1) // S_INR. r_ring.
Qed.

Lemma sum_div (y : seq R) (f : R -> R) (k : R) :
  np_sum [seq f yi / k | yi <- y] = np_sum [seq f yi | yi <- y] / k.
Proof.
  elim: y => [|v y IH].
  - rewrite /=. unfold Rdiv. r_ring.
  - rewrite !map_cons !np_sum_cons IH. unfold Rdiv. r_ring.
Qed.

Lemma nll_sum (b0 b1 sigma2 : R) (y : seq R) (x : R) :
  neg_log_likelihood b0 b1 sigma2 y x =
  np_sum [seq (yi - (b0 + b1 * x)) ^ 2 | yi <- y] / (2 * sigma2).
Proof.
  by rewrite /neg_log_likelihood (sum_div y (fun yi => (yi - (b0 + b1 * x)) ^ 2)).
Qed.

(** The gap between the loss at [x] and the loss at the closed form. *)
Lemma nll_gap (b0 b1 sigma2 : R) (y : seq R) (x : R) :
  y <> [::] -> b1 <> 0 -> sigma2 <> 0 ->
  neg_log_likelihood b0 b1 sigma2 y x =
  neg_log_likelihood b0 b1 sigma2 y ((np_mean y - b0) / b1)
  + INR (size y) * (b1 * (x - (np_mean y - b0) / b1)) ^ 2 / (2 * sigma2).
Proof.
  move=> Hy Hb Hs.
  have HN : INR (size y) <> 0 by have := size_pos_INR Hy; r_lra.
  set xh := (np_mean y - b0) / b1.
  have Hc : b0 + b1 * xh = np_mean y by rewrite /xh; r_field.
  have Hx : b0 + b1 * x = np_mean y + b1 * (x - xh) by rewrite -Hc; r_ring.
  rewrite !nll_sum Hx Hc sum_sq_shift.
  have -> : np_sum y - INR (size y) * np_mean y = 0 by rewrite /np_mean; r_field.
  by r_field.
Qed.

(** C4.  For a nonempty batch, [beta_1 <> 0] and any variance
    [sigma2 > 0], the value [(mean(y) - beta_0) / beta_1] stored by
    [LinearMaximumLikelihoodAgent.infer_state] is the unique minimiser of the
    negative Gaussian log-likelihood: every other state has a strictly larger
    loss.  The stored value is the same for every [sigma2]. *)
Theorem mle_infer_state_unique_minimizer
    (p : LinearMaximumLikelihoodAgent.params) (y : seq R) :
  y <> [::] -> LinearMaximumLikelihoodAgent.beta_1 p <> 0 ->
  exists xhat : R,
    [/\ LinearMaximumLikelihoodAgent.posterior_mode
          (LinearMaximumLikelihoodAgent.infer_state
             (LinearMaximumLikelihoodAgent.init p) y) = Some xhat,
        xhat = (np_mean y - LinearMaximumLikelihoodAgent.beta_0 p)
               / LinearMaximumLikelihoodAgent.beta_1 p
      & forall sigma2 x : R, 0 < sigma2 -> x <> xhat ->
          neg_log_likelihood (LinearMaximumLikelihoodAgent.beta_0 p)
            (LinearMaximumLikelihoodAgent.beta_1 p) sigma2 y xhat
          < neg_log_likelihood (LinearMaximumLikelihoodAgent.beta_0 p)
              (LinearMaximumLikelihoodAgent.beta_1 p) sigma2 y x].
Proof.
  case: p => b0 b1 /= Hy Hb.
  exists ((np_mean y - b0) / b1); split=> // sigma2 x Hs Hx.
  rewrite (@nll_gap b0 b1 sigma2 y x) //; first by r_lra.
  set xh := (np_mean y - b0) / b1 in Hx *.
  have HN := size_pos_INR Hy.
  have Hd : 0 < (b1 * (x - xh)) ^ 2.
    have Hne : b1 * (x - xh) <> 0.
      by apply: Rmult_integral_contrapositive_currified => //; r_lra.
    by have := pow2_ge_0 (b1 * (x - xh)); r_nra.
  have Hq : 0 < INR (size y) * (b1 * (x - xh)) ^ 2 / (2 * sigma2).
    apply: Rdiv_lt_0_compat; last by r_lra.
    exact: Rmult_lt_0_compat.
  by r_lra.
Qed.

Lemma mle_infer_state_unique_minimizer_witness :
  exists xhat : R,
    [/\ LinearMaximumLikelihoodAgent.posterior_mode
          (LinearMaximumLikelihoodAgent.infer_state
             (LinearMaximumLikelihoodAgent.init
                (LinearMaximumLikelihoodAgent.Build_params 3 2)) [:: 7])
        = Some xhat,
        xhat = (np_mean [:: 7] - 3) / 2
      & forall sigma2 x : R, 0 < sigma2 -> x <> xhat ->
          neg_log_likelihood 3 2 sigma2 [:: 7] xhat
          < neg_log_likelihood 3 2 sigma2 [:: 7] x].
Proof.
  apply: (@mle_infer_state_unique_minimizer
            (LinearMaximumLikelihoodAgent.Build_params 3 2) [:: 7]).
  - by [].
  - rewrite /=; r_lra.
Defined.

(** The clean single-sample run of the notebook: light intensity 7 gives
    the state 2. *)
Example mle_single_clean_sample :
  LinearMaximumLikelihoodAgent.posterior_mode
    (LinearMaximumLikelihoodAgent.infer_state
       (LinearMaximumLikelihoodAgent.init
          (LinearMaximumLikelihoodAgent.Build_params 3 2)) [:: 7]) = Some 2.
Proof. rewrite /= /np_mean /=; congr Some; r_field. Qed.

(** C3.  For a nonempty batch and [beta_1 <> 0],
    [LinearMaximumAprioriAgent.infer_state] stores
    [(beta_1 * (mean(y) - beta_0) + m_x) / (beta_1^2 + 1)]; whenever the prior
    mean differs from the maximum-likelihood value this lies strictly between
    the two; and with [beta_0 = 3], [beta_1 = 2], [m_x = 4] the single sample
    [7] gives [2.4]. *)
Theorem map_infer_state_blend
    (p : LinearMaximumAprioriAgent.params) (y : seq R) :
  y <> [::] -> LinearMaximumAprioriAgent.beta_1 p <> 0 ->
  let b0 := LinearMaximumAprioriAgent.beta_0 p in
  let b1 := LinearMaximumAprioriAgent.beta_1 p in
  let mx := LinearMaximumAprioriAgent.m_x p in
  let x_mle := (np_mean y - b0) / b1 in
  exists x_map : R,
    [/\ LinearMaximumAprioriAgent.posterior_mode
          (LinearMaximumAprioriAgent.infer_state
             (LinearMaximumAprioriAgent.init p) y) = Some x_map,
        x_map = (b1 * (np_mean y - b0) + mx) / (b1 ^ 2 + 1),
        mx <> x_mle -> strictly_between x_mle mx x_map
      & LinearMaximumAprioriAgent.posterior_mode
          (LinearMaximumAprioriAgent.infer_state
             (LinearMaximumAprioriAgent.init
                (LinearMaximumAprioriAgent.Build_params 3 2 4)) [:: 7])
        = Some (24 / 10)].
Proof.
  case: p => b0 b1 mx /= _ Hb.
  exists ((b1 * (np_mean y - b0) + mx) / (b1 * (b1 * 1) + 1)); split=> //.
  - move=> Hne.
    set m := np_mean y.
    have Hb2 : 0 < b1 * b1 by r_nra.
    have Hden : 0 < b1 * (b1 * 1) + 1 by r_nra.
    have Hmle : (b1 * (m - b0) + mx) / (b1 * (b1 * 1) + 1) - (m - b0) / b1
                = (mx - (m - b0) / b1) / (b1 * (b1 * 1) + 1).
      by r_field; split=> //; r_lra.
    have Hpri : mx - (b1 * (m - b0) + mx) / (b1 * (b1 * 1) + 1)
                = (b1 * b1) * (mx - (m - b0) / b1) / (b1 * (b1 * 1) + 1).
      by r_field; split=> //; r_lra.
    have Hinv : 0 < / (b1 * (b1 * 1) + 1) by apply: Rinv_0_lt_compat.
    rewrite /strictly_between.
    case: (Rtotal_order mx ((m - b0) / b1)) => [Hlt|[Heq|Hgt]] //.
    + right.
      have H1 : (mx - (m - b0) / b1) / (b1 * (b1 * 1) + 1) < 0.
        rewrite /Rdiv; r_nra.
      have H2 : b1 * b1 * (mx - (m - b0) / b1) / (b1 * (b1 * 1) + 1) < 0.
        rewrite /Rdiv; r_nra.
      by split; r_lra.
    + left.
      have H1 : 0 < (mx - (m - b0) / b1) / (b1 * (b1 * 1) + 1).
        rewrite /Rdiv; r_nra.
      have H2 : 0 < b1 * b1 * (mx - (m - b0) / b1) / (b1 * (b1 * 1) + 1).
        rewrite /Rdiv; r_nra.
      by split; r_lra.
  - rewrite /np_mean /=; congr Some; r_field.
Qed.

Lemma map_infer_state_blend_witness :
  exists x_map : R,
    [/\ LinearMaximumAprioriAgent.posterior_mode
          (LinearMaximumAprioriAgent.infer_state
             (LinearMaximumAprioriAgent.init
                (LinearMaximumAprioriAgent.Build_params 3 2 4)) [:: 7])
        = Some x_map,
        x_map = (2 * (np_mean [:: 7] - 3) + 4) / (2 ^ 2 + 1),
        4 <> (np_mean [:: 7] - 3) / 2 ->
        strictly_between ((np_mean [:: 7] - 3) / 2) 4 x_map
      & LinearMaximumAprioriAgent.posterior_mode
          (LinearMaximumAprioriAgent.infer_state
             (LinearMaximumAprioriAgent.init
                (LinearMaximumAprioriAgent.Build_params 3 2 4)) [:: 7])
        = Some (24 / 10)].
Proof.
  apply: (@map_infer_state_blend
            (LinearMaximumAprioriAgent.Build_params 3 2 4) [:: 7]).
  - by [].
  - rewrite /=; r_lra.
Defined.

End Ch2_closed_form.

Section Ch2_grid_posterior.

Import Ch2.
Local Open Scope R_scope.

(** *** [np.max] *)

Lemma foldl_Rmax_ub (a : seq R) (v : R) :
  v <= foldl Rmax v a /\
  (forall j, (j < size a)%N -> nth 0 a j <= foldl Rmax v a).
Proof.
  elim: a v => [|w a IH] v /=; first by split=> //; exact: Rle_refl.
  have [Hv Ha] := IH (Rmax v w); split.
  - exact: Rle_trans (Rmax_l v w) Hv.
  - case=> [|j] Hj /=; first exact: Rle_trans (Rmax_r v w) Hv.
    exact: Ha.
Qed.

Lemma foldl_Rmax_in (a : seq R) (v : R) :
  foldl Rmax v a = v \/
  (exists2 j, (j < size a)%N & nth 0 a j = foldl Rmax v a).
Proof.
  elim: a v => [|w a IH] v /=; first by left.
  case: (IH (Rmax v w)) => [->|[j Hj Hn]].
  - rewrite /Rmax; case: (Rle_dec v w) => _; last by left.
    by right; exists 0%N.
  - by right; exists j.+1.
Qed.

Lemma np_max_is_max (a : seq R) :
  a <> [::] ->
  exists2 m, np_max a = Ok m & is_max_of (size a) (nth 0 a) m.
Proof.
  case: a => [|v a] // _; exists (foldl Rmax v a) => //.
  have [Hv Ha] := foldl_Rmax_ub a v; split.
  - case: (foldl_Rmax_in a v) => [->|[j Hj Hn]]; first by exists 0%N.
    by exists j.+1.
  - by case=> [|j] Hj //=; exact: Ha.
Qed.

Lemma is_max_of_unique (G : nat) (f : nat -> R) (m1 m2 : R) :
  is_max_of G f m1 -> is_max_of G f m2 -> m1 = m2.
Proof.
  move=> [[j1 Hj1 <-] Hub1] [[j2 Hj2 <-] Hub2].
  by apply: Rle_antisym; [exact: Hub2 | exact: Hub1].
Qed.

(** *** Column sums *)

Lemma size_np_add (a b : seq R) :
  size a = size b -> size (np_add a b) = size a.
Proof. by move=> Hs; rewrite /np_add size_map size_zip -Hs minnn. Qed.

Lemma nth_np_add (a b : seq R) (i : nat) :
  size a = size b -> (i < size a)%N ->
  nth 0 (np_add a b) i = nth 0 a i + nth 0 b i.
Proof.
  move=> Hs Hi.
  rewrite /np_add (nth_map (0, 0)) ?size_zip -?Hs ?minnn //.
  by rewrite nth_zip.
Qed.

Lemma size_sum_axis0 (G : nat) (rows : seq (seq R)) :
  all (fun row => size row == G) rows -> size (sum_axis0 G rows) = G.
Proof.
  elim: rows => [|row rows IH] /=; first by rewrite size_nseq.
  move=> /andP [/eqP Hr Hrs].
  by rewrite size_map size_zip Hr (IH Hrs) minnn.
Qed.

Lemma nth_sum_axis0 (G : nat) (rows : seq (seq R)) (g : nat) :
  all (fun row => size row == G) rows -> (g < G)%N ->
  nth 0 (sum_axis0 G rows) g = np_sum [seq nth 0 row g | row <- rows].
Proof.
  move=> Hall Hg; elim: rows Hall => [|row rows IH] /=.
  - by rewrite nth_nseq Hg.
  - move=> /andP [/eqP Hr Hrs].
    have Hs := size_sum_axis0 Hrs.
    rewrite -/(sum_axis0 G rows) -/(np_add row (sum_axis0 G rows)).
    by rewrite nth_np_add ?Hs ?Hr // IH.
Qed.

(** *** The run of [infer_state] *)

Import ExactLinearAgent.

Lemma size_stored_log_prior (p : params) :
  size (stored_log_prior p) = size (x_range p).
Proof. by rewrite /stored_log_prior /stored_prior !size_map. Qed.

Lemma stored_rows_ok (p : params) (y : seq R) :
  all (fun row : seq R => size row == size (x_range p))
    [seq [seq ln v | v <- row]
    | row <- [seq [seq norm_pdf yn g (std_y p) | g <- gm p (x_range p)]
             | yn <- y]].
Proof.
  elim: y => [|yn y IH] //=.
  by rewrite /gm !size_map eqxx.
Qed.

Lemma size_stored_log_likelihood (p : params) (y : seq R) :
  size (stored_log_likelihood p y) = size (x_range p).
Proof.
  rewrite /stored_log_likelihood {1}/gm size_map.
  exact: size_sum_axis0 (stored_rows_ok p y).
Qed.

Lemma size_stored_log_gen_model (p : params) (y : seq R) :
  size (stored_log_gen_model p y) = size (x_range p).
Proof.
  rewrite /stored_log_gen_model size_np_add size_stored_log_likelihood //.
  by rewrite size_stored_log_prior.
Qed.

Lemma nth_stored_log_gen_model (p : params) (y : seq R) (i : nat) :
  (i < size (x_range p))%N ->
  nth 0 (stored_log_gen_model p y) i =
  nth 0 (stored_log_likelihood p y) i + nth 0 (stored_log_prior p) i.
Proof.
  move=> Hi; rewrite /stored_log_gen_model nth_np_add //.
  - by rewrite size_stored_log_likelihood size_stored_log_prior.
  - by rewrite size_stored_log_likelihood.
Qed.

(** What each stored entry is: the summed log-density of the samples at the
    grid point, and the log-density of the prior at the grid point. *)
Lemma nth_stored_log_likelihood (p : params) (y : seq R) (i : nat) :
  (i < size (x_range p))%N ->
  nth 0 (stored_log_likelihood p y) i =
  np_sum [seq ln (norm_pdf yn (beta_1 p * nth 0 (x_range p) i + beta_0 p)
                    (std_y p)) | yn <- y].
Proof.
  move=> Hi; rewrite /stored_log_likelihood {1}/gm size_map.
  rewrite (nth_sum_axis0 (stored_rows_ok p y) Hi) -!map_comp.
  congr np_sum; apply: eq_map => yn /=.
  rewrite (nth_map 0) ?size_map // (nth_map 0) ?size_map //.
  by rewrite /gm (nth_map 0).
Qed.

Lemma nth_stored_log_prior (p : params) (i : nat) :
  (i < size (x_range p))%N ->
  nth 0 (stored_log_prior p) i =
  ln (norm_pdf (nth 0 (x_range p) i) (m_x p) (s_x p)).
Proof.
  move=> Hi; rewrite /stored_log_prior /stored_prior.
  by rewrite (nth_map 0) ?size_map // (nth_map 0).
Qed.

Lemma infer_state_run (p : params) (y : seq R) :
  x_range p <> [::] ->
  exists2 m,
    is_max_of (size (x_range p)) (nth 0 (stored_log_gen_model p y)) m
    & infer_state y (init p) =
      (Ok tt,
       {| prm := p;
          log_likelihood := Some (stored_log_likelihood p y);
          log_prior := Some (stored_log_prior p);
          gen_model := None; evidence := None;
          posterior := Some [seq exp (v - m) | v <- stored_log_gen_model p y];
          prior := Some (stored_prior p);
          log_gen_model := Some (stored_log_gen_model p y) |}).
Proof.
  move=> Hx.
  have Hne : stored_log_gen_model p y <> [::].
    move=> H0; apply: Hx; apply: size0nil.
    by rewrite -(size_stored_log_gen_model p y) H0.
  have [m Hm Hmax] := np_max_is_max Hne.
  exists m; first by rewrite -(size_stored_log_gen_model p y).
  rewrite /infer_state /generative_model /bind /get /modify /ret /lift /=.
  by rewrite -/(stored_prior p) -/(stored_log_prior p)
       -/(stored_log_likelihood p y) -/(stored_log_gen_model p y) Hm.
Qed.

(** C1.  On a nonempty grid, [ExactLinearAgent.infer_state] returns and
    leaves in [posterior] the array whose entry [i] is
    [exp (log_likelihood[i] + log_prior[i] - max_j (log_likelihood[j] +
    log_prior[j]))], where [log_likelihood] and [log_prior] are the arrays it
    stored for the batch: the summed log-density of the samples and the
    log-density of the prior at each grid point. *)
Theorem exact_infer_state_posterior (p : params) (y : seq R) :
  x_range p <> [::] ->
  let G := size (x_range p) in
  exists (self' : t) (ll lp post : seq R) (m : R),
    [/\ infer_state y (init p) = (Ok tt, self'),
        [/\ log_likelihood self' = Some ll, log_prior self' = Some lp
          & posterior self' = Some post],
        [/\ size ll = G, size lp = G & size post = G],
        forall i, (i < G)%N ->
          nth 0 ll i =
            np_sum [seq ln (norm_pdf yn
                              (beta_1 p * nth 0 (x_range p) i + beta_0 p)
                              (std_y p)) | yn <- y]
          /\ nth 0 lp i = ln (norm_pdf (nth 0 (x_range p) i) (m_x p) (s_x p))
      & is_max_of G (fun j => nth 0 ll j + nth 0 lp j) m /\
        forall i, (i < G)%N ->
          nth 0 post i = exp (nth 0 ll i + nth 0 lp i - m)].
Proof.
  move=> Hx G; have [m [[j Hj Hjm] Hub] Hrun] := infer_state_run y Hx.
  eexists; exists (stored_log_likelihood p y), (stored_log_prior p).
  exists [seq exp (v - m) | v <- stored_log_gen_model p y], m.
  split; first exact: Hrun.
  - by [].
  - rewrite size_map size_stored_log_likelihood size_stored_log_prior.
    by rewrite size_stored_log_gen_model.
  - move=> i Hi.
    by rewrite nth_stored_log_likelihood // nth_stored_log_prior.
  - split; first split.
    + by exists j => //; rewrite -nth_stored_log_gen_model.
    + by move=> k Hk; rewrite -nth_stored_log_gen_model //; exact: Hub.
    + move=> i Hi.
      rewrite (nth_map 0) ?size_stored_log_gen_model //.
      by rewrite nth_stored_log_gen_model.
Qed.

(** The notebook's agent parameters on a two-point grid, one sample. *)
Lemma exact_infer_state_posterior_witness :
  let p := Build_params 3 2 (1 / 4) 4 (1 / 4) [:: 1; 2] in
  exists (self' : t) (ll lp post : seq R) (m : R),
    [/\ infer_state [:: 7] (init p) = (Ok tt, self'),
        [/\ log_likelihood self' = Some ll, log_prior self' = Some lp
          & posterior self' = Some post],
        [/\ size ll = 2%N, size lp = 2%N & size post = 2%N],
        forall i, (i < 2)%N ->
          nth 0 ll i =
            np_sum [seq ln (norm_pdf yn (2 * nth 0 [:: 1; 2] i + 3) (1 / 4))
                   | yn <- [:: 7]]
          /\ nth 0 lp i = ln (norm_pdf (nth 0 [:: 1; 2] i) 4 (1 / 4))
      & is_max_of 2 (fun j => nth 0 ll j + nth 0 lp j) m /\
        forall i, (i < 2)%N ->
          nth 0 post i = exp (nth 0 ll i + nth 0 lp i - m)].
Proof.
  exact: (@exact_infer_state_posterior
            (Build_params 3 2 (1 / 4) 4 (1 / 4) [:: 1; 2]) [:: 7]).
Defined.

Lemma exp_le_1 (v m : R) : v <= m -> exp (v - m) <= 1.
Proof.
  move=> [Hlt|->]; last by rewrite Rminus_diag exp_0; exact: Rle_refl.
  by rewrite -exp_0; left; apply: exp_increasing; r_lra.
Qed.

(** C2.  Whenever the log generative model over the grid has a maximum (so
    that [np.max] returns), [infer_state] returns and the largest entry of the
    posterior it stores is exactly [1]. *)
Theorem exact_posterior_max_is_one (p : params) (y : seq R) :
  (exists m, np_max (stored_log_gen_model p y) = Ok m) ->
  exists (self' : t) (post : seq R),
    [/\ infer_state y (init p) = (Ok tt, self'),
        log_gen_model self' = Some (stored_log_gen_model p y),
        posterior self' = Some post
      & np_max post = Ok 1].
Proof.
  move=> [m0 Hm0].
  have Hx : x_range p <> [::].
    move=> H0; have := size_stored_log_gen_model p y.
    by rewrite H0 => /size0nil H; rewrite H in Hm0.
  have [m [[j Hj Hjm] Hub] Hrun] := infer_state_run y Hx.
  eexists; exists [seq exp (v - m) | v <- stored_log_gen_model p y].
  split; [exact: Hrun | by [] | by [] |].
  set post := map _ _.
  have Hsz : size post = size (x_range p).
    by rewrite size_map size_stored_log_gen_model.
  have Hne : post <> [::] by move=> H0; apply: Hx; apply: size0nil; rewrite -Hsz H0.
  have [m1 -> Hm1] := np_max_is_max Hne; congr Ok.
  apply: is_max_of_unique Hm1 _; rewrite Hsz; split.
  - exists j => //; rewrite (nth_map 0) ?size_stored_log_gen_model //.
    by rewrite Hjm Rminus_diag exp_0.
  - move=> k Hk; rewrite (nth_map 0) ?size_stored_log_gen_model //.
    by apply: exp_le_1; exact: Hub.
Qed.

Lemma exact_posterior_max_is_one_witness :
  let p := Build_params 3 2 (1 / 4) 4 (1 / 4) [:: 1; 2] in
  exists (self' : t) (post : seq R),
    [/\ infer_state [:: 7] (init p) = (Ok tt, self'),
        log_gen_model self' = Some (stored_log_gen_model p [:: 7]),
        posterior self' = Some post
      & np_max post = Ok 1].
Proof.
  apply: (@exact_posterior_max_is_one
            (Build_params 3 2 (1 / 4) 4 (1 / 4) [:: 1; 2]) [:: 7]).
  by eexists; reflexivity.
Defined.

End Ch2_grid_posterior.

Section Ch2_more_data.

Import Ch2.
Local Open Scope R_scope.

Lemma np_sum_nseq (N : nat) (c : R) : np_sum (nseq N c) = INR N * c.
Proof.
  elim: N => [|N IH]; first by rewrite /=; r_ring.
  by rewrite (_ : nseq N.+1 c = c :: nseq N c) // np_sum_cons IH S_INR; r_ring.
Qed.

Lemma np_mean_nseq (N : nat) (c : R) : (0 < N)%N -> np_mean (nseq N c) = c.
Proof.
  move=> HN; rewrite /np_mean np_sum_nseq size_nseq.
  have : INR N <> 0 by apply: not_0_INR => H0; rewrite H0 in HN.
  by move=> H; r_field.
Qed.

(** The closed-form MAP estimate on clean data does not see [N]. *)
Lemma map_clean_estimate (p : LinearMaximumAprioriAgent.params)
    (x_star : R) (N : nat) :
  (0 < N)%N ->
  let b0 := LinearMaximumAprioriAgent.beta_0 p in
  let b1 := LinearMaximumAprioriAgent.beta_1 p in
  LinearMaximumAprioriAgent.posterior_mode
    (LinearMaximumAprioriAgent.infer_state
       (LinearMaximumAprioriAgent.init p) (clean_batch b0 b1 x_star N))
  = Some ((b1 ^ 2 * x_star + LinearMaximumAprioriAgent.m_x p) / (b1 ^ 2 + 1)).
Proof.
  case: p => b0 b1 mx /= HN; rewrite /clean_batch np_mean_nseq //.
  by congr Some; r_field; r_nra.
Qed.

Lemma mle_clean_estimate (b0 b1 x_star : R) (N : nat) :
  (0 < N)%N -> b1 <> 0 ->
  LinearMaximumLikelihoodAgent.posterior_mode
    (LinearMaximumLikelihoodAgent.infer_state
       (LinearMaximumLikelihoodAgent.init
          (LinearMaximumLikelihoodAgent.Build_params b0 b1))
       (clean_batch b0 b1 x_star N))
  = Some x_star.
Proof.
  move=> HN Hb /=; rewrite /clean_batch np_mean_nseq //.
  by congr Some; r_field.
Qed.

(** C7, as stated, fails for the closed-form agent: with [beta_0 = 3],
    [beta_1 = 2], [m_x = 4] and clean observations of [x_star = 2] the MAP
    estimate is [2.4] and the MLE estimate is [2] for every [N], so their
    distance never drops below [0.4]. *)
Lemma map_gap_does_not_vanish :
  ~ map_gap_vanishes (LinearMaximumAprioriAgent.Build_params 3 2 4) 2.
Proof.
  move=> /(_ (1 / 10)) H.
  have [|N0 HN0] := H; first by r_lra.
  have := HN0 N0.+1 (leqnSn N0) (ltn0Sn N0) _ _
            (@map_clean_estimate
               (LinearMaximumAprioriAgent.Build_params 3 2 4) 2 N0.+1
               (ltn0Sn N0))
            (@mle_clean_estimate 3 2 2 N0.+1 (ltn0Sn N0) _).
  rewrite /=.
  have -> : (2 * (2 * 1) * 2 + 4) / (2 * (2 * 1) + 1) - 2 = 2 / 5 by r_field.
  have -> : Rabs (2 / 5) = 2 / 5 by apply: Rabs_pos_eq; r_lra.
  by move=> Hc; have := Hc ltac:(r_lra); r_lra.
Qed.

(** *** The grid posterior on clean data *)

Import ExactLinearAgent.

Lemma sqrt_2PI_pos : 0 < sqrt (2 * PI).
Proof. by apply: sqrt_lt_R0; have := PI_RGT_0; r_lra. Qed.

Lemma ln_norm_pdf (x loc scale : R) :
  0 < scale ->
  ln (norm_pdf x loc scale) =
  - (((x - loc) / scale) ^ 2) / 2 - ln (sqrt (2 * PI)) - ln scale.
Proof.
  move=> Hs; rewrite /norm_pdf.
  set a := - (((x - loc) / scale) ^ 2) / 2.
  have He := exp_pos a.
  have Hq := sqrt_2PI_pos.
  have Hiq : 0 < / sqrt (2 * PI) by apply: Rinv_0_lt_compat.
  have His : 0 < / scale by apply: Rinv_0_lt_compat.
  have -> : exp a / sqrt (2 * PI) / scale = exp a * / sqrt (2 * PI) * / scale.
    by [].
  rewrite ln_mult //; first exact: Rmult_lt_0_compat.
  rewrite ln_mult // ln_exp !ln_Rinv //.
Qed.

Lemma clean_log_likelihood (p : params) (x_star : R) (N i : nat) :
  (i < size (x_range p))%N ->
  nth 0 (stored_log_likelihood p (clean_batch (beta_0 p) (beta_1 p) x_star N)) i
  = INR N * ln (norm_pdf (beta_0 p + beta_1 p * x_star)
                  (beta_1 p * nth 0 (x_range p) i + beta_0 p) (std_y p)).
Proof.
  move=> Hi; rewrite nth_stored_log_likelihood // /clean_batch map_nseq.
  exact: np_sum_nseq.
Qed.

(** How much larger the log generative model is at grid point [i] than at
    grid point [j], after [N] clean samples. *)
Lemma clean_log_gen_model_gap (p : params) (x_star : R) (N i j : nat) :
  0 < std_y p ->
  (i < size (x_range p))%N -> (j < size (x_range p))%N ->
  let y := clean_batch (beta_0 p) (beta_1 p) x_star N in
  let xi := nth 0 (x_range p) i in
  let xj := nth 0 (x_range p) j in
  nth 0 (stored_log_gen_model p y) i - nth 0 (stored_log_gen_model p y) j =
  INR N * ((beta_1 p / std_y p) ^ 2
           * ((xj - x_star) ^ 2 - (xi - x_star) ^ 2) / 2)
  + (nth 0 (stored_log_prior p) i - nth 0 (stored_log_prior p) j).
Proof.
  move=> Hs Hi Hj y xi xj.
  rewrite !nth_stored_log_gen_model // !clean_log_likelihood //.
  rewrite !ln_norm_pdf // -/xi -/xj.
  by r_field; r_lra.
Qed.

Lemma sqr_lt_of_abs_lt (a b : R) : Rabs a < Rabs b -> a ^ 2 < b ^ 2.
Proof.
  by move=> /Rsqr_lt_abs_1; rewrite /Rsqr /=; r_lra.
Qed.

Lemma pair_threshold (p : params) (x_star : R) (i j : nat) :
  0 < std_y p -> beta_1 p <> 0 ->
  (i < size (x_range p))%N -> (j < size (x_range p))%N ->
  Rabs (nth 0 (x_range p) i - x_star) < Rabs (nth 0 (x_range p) j - x_star) ->
  exists N0 : nat, forall N : nat, (N0 <= N)%N ->
    let y := clean_batch (beta_0 p) (beta_1 p) x_star N in
    nth 0 (stored_log_gen_model p y) j < nth 0 (stored_log_gen_model p y) i.
Proof.
  move=> Hs Hb Hi Hj /sqr_lt_of_abs_lt Hlt.
  set xi := nth 0 (x_range p) i in Hlt *.
  set xj := nth 0 (x_range p) j in Hlt *.
  set d := (beta_1 p / std_y p) ^ 2 * ((xj - x_star) ^ 2 - (xi - x_star) ^ 2) / 2.
  set c := nth 0 (stored_log_prior p) j - nth 0 (stored_log_prior p) i.
  have Hd : 0 < d.
    have Hq : beta_1 p / std_y p <> 0.
      apply: Rmult_integral_contrapositive_currified => //.
      by apply: Rinv_neq_0_compat; r_lra.
    have Hq2 : 0 < (beta_1 p / std_y p) ^ 2.
      by have := pow2_ge_0 (beta_1 p / std_y p); r_nra.
    rewrite /d; apply: Rdiv_lt_0_compat; last by r_lra.
    by apply: Rmult_lt_0_compat => //; r_lra.
  have [N0 HN0] := INR_archimed d c Hd.
  exists N0 => N HN y.
  have Hgap := @clean_log_gen_model_gap p x_star N i j Hs Hi Hj.
  rewrite /= -/xi -/xj -/d in Hgap.
  have HNN : INR N0 <= INR N by apply: le_INR; apply/leP.
  have : INR N0 * d <= INR N * d by apply: Rmult_le_compat_r => //; r_lra.
  by rewrite /c in HN0; rewrite /y; r_lra.
Qed.

(** Finitely many thresholds have a common one. *)
Lemma common_threshold (G : nat) (P : nat -> nat -> Prop) :
  (forall i, (i < G)%N -> exists N0, forall N, (N0 <= N)%N -> P i N) ->
  exists N0, forall N, (N0 <= N)%N -> forall i, (i < G)%N -> P i N.
Proof.
  elim: G => [|G IH] H; first by exists 0%N.
  have [N1 H1] := IH (fun i Hi => H i (ltnW Hi)).
  have [N2 H2] := H G (ltnSn G).
  exists (maxn N1 N2) => N; rewrite geq_max => /andP [HN1 HN2] i.
  rewrite ltnS leq_eqVlt => /orP [/eqP ->|Hi]; first exact: H2.
  exact: H1.
Qed.

Lemma grid_threshold (p : params) (x_star : R) :
  0 < std_y p -> beta_1 p <> 0 ->
  exists N0 : nat, forall N : nat, (N0 <= N)%N ->
    forall i, (i < size (x_range p))%N -> forall j, (j < size (x_range p))%N ->
      Rabs (nth 0 (x_range p) i - x_star) < Rabs (nth 0 (x_range p) j - x_star) ->
      let y := clean_batch (beta_0 p) (beta_1 p) x_star N in
      nth 0 (stored_log_gen_model p y) j < nth 0 (stored_log_gen_model p y) i.
Proof.
  move=> Hs Hb.
  apply: (@common_threshold (size (x_range p))
            (fun i N => forall j, (j < size (x_range p))%N -> _)) => i Hi.
  apply: (@common_threshold (size (x_range p))
            (fun j N => _ -> _)) => j Hj.
  case: (Rlt_dec (Rabs (nth 0 (x_range p) i - x_star))
                 (Rabs (nth 0 (x_range p) j - x_star))) => [Hlt|Hnlt].
  - have [N0 HN0] := pair_threshold Hs Hb Hi Hj Hlt.
    by exists N0 => N HN _; exact: HN0.
  - by exists 0%N.
Qed.

(** C7, amended.  On clean observations of [x_star]:
    - the closed-form [LinearMaximumAprioriAgent] returns
      [(beta_1^2 * x_star + m_x) / (beta_1^2 + 1)] for every [N >= 1], the
      closed-form maximum-likelihood agent returns [x_star], and their
      distance is [|m_x - x_star| / (beta_1^2 + 1)] whatever [N] is;
    - the grid posterior of [ExactLinearAgent] (with [std_y > 0],
      [beta_1 <> 0], a nonempty grid) does follow the data: from some [N0]
      on, [infer_state] returns a posterior that is strictly larger at a grid
      point strictly closer to [x_star] than at one farther away, so every
      grid point where the posterior is [1] (its mode) is a grid point
      nearest to [x_star]. *)
Theorem map_with_more_data
    (q : LinearMaximumAprioriAgent.params) (p : params) (x_star : R) :
  LinearMaximumAprioriAgent.beta_1 q <> 0 ->
  0 < std_y p -> beta_1 p <> 0 -> x_range p <> [::] ->
  let b0 := LinearMaximumAprioriAgent.beta_0 q in
  let b1 := LinearMaximumAprioriAgent.beta_1 q in
  let mx := LinearMaximumAprioriAgent.m_x q in
  let G := size (x_range p) in
  let dist := fun i => Rabs (nth 0 (x_range p) i - x_star) in
  (forall N : nat, (0 < N)%N ->
     exists x_map x_mle : R,
       [/\ LinearMaximumAprioriAgent.posterior_mode
             (LinearMaximumAprioriAgent.infer_state
                (LinearMaximumAprioriAgent.init q)
                (clean_batch b0 b1 x_star N)) = Some x_map,
           LinearMaximumLikelihoodAgent.posterior_mode
             (LinearMaximumLikelihoodAgent.infer_state
                (LinearMaximumLikelihoodAgent.init
                   (LinearMaximumLikelihoodAgent.Build_params b0 b1))
                (clean_batch b0 b1 x_star N)) = Some x_mle,
           x_map = (b1 ^ 2 * x_star + mx) / (b1 ^ 2 + 1),
           x_mle = x_star
         & Rabs (x_map - x_mle) = Rabs (mx - x_star) / (b1 ^ 2 + 1)])
  /\
  (exists N0 : nat, forall N : nat, (N0 <= N)%N ->
     exists (self' : t) (post : seq R),
       [/\ infer_state (clean_batch (beta_0 p) (beta_1 p) x_star N) (init p)
             = (Ok tt, self'),
           posterior self' = Some post,
           forall i j, (i < G)%N -> (j < G)%N ->
             dist i < dist j -> nth 0 post j < nth 0 post i
         & forall k, (k < G)%N -> nth 0 post k = 1 ->
             forall j, (j < G)%N -> dist k <= dist j]).
Proof.
  move=> Hq Hs Hb Hx b0 b1 mx G dist; split.
  - move=> N HN; eexists; eexists; split.
    + exact: map_clean_estimate.
    + exact: mle_clean_estimate.
    + by [].
    + by [].
    + have Hden : 0 < b1 ^ 2 + 1 by have := pow2_ge_0 b1; r_lra.
      have -> : (b1 ^ 2 * x_star + mx) / (b1 ^ 2 + 1) - x_star
                = (mx - x_star) / (b1 ^ 2 + 1) by r_field; r_lra.
      rewrite /Rdiv Rabs_mult (Rabs_pos_eq (/ _)) //.
      by left; apply: Rinv_0_lt_compat.
  - have [N0 HN0] := grid_threshold x_star Hs Hb.
    exists N0 => N HN.
    set y := clean_batch (beta_0 p) (beta_1 p) x_star N.
    have [m [[jm Hjm Hjmm] Hub] Hrun] := infer_state_run y Hx.
    have Hpost : forall i, (i < G)%N ->
        nth 0 [seq exp (v - m) | v <- stored_log_gen_model p y] i
        = exp (nth 0 (stored_log_gen_model p y) i - m).
      by move=> i Hi; rewrite (nth_map 0) ?size_stored_log_gen_model.
    have Hlt : forall i j, (i < G)%N -> (j < G)%N -> dist i < dist j ->
        nth 0 [seq exp (v - m) | v <- stored_log_gen_model p y] j
        < nth 0 [seq exp (v - m) | v <- stored_log_gen_model p y] i.
      move=> i j Hi Hj Hd; rewrite !Hpost //; apply: exp_increasing.
      by have := HN0 N HN i Hi j Hj Hd; rewrite /= -/y; r_lra.
    eexists; exists [seq exp (v - m) | v <- stored_log_gen_model p y].
    split; [exact: Hrun | by [] | exact: Hlt |].
    move=> k Hk Hk1 j Hj; apply: Rnot_lt_le => Hd.
    have := Hlt j k Hj Hk Hd; rewrite Hk1 Hpost // => H1.
    by have := exp_le_1 (Hub j Hj); r_lra.
Qed.

(** The notebook's parameters, a three-point grid, true state [2]. *)
Lemma map_with_more_data_witness :
  exists N0 : nat, forall N : nat, (N0 <= N)%N ->
    exists (self' : t) (post : seq R),
      let p := Build_params 3 2 (1 / 4) 4 (1 / 4) [:: 1; 2; 4] in
      [/\ infer_state (clean_batch 3 2 2 N) (init p) = (Ok tt, self'),
          posterior self' = Some post,
          forall i j, (i < 3)%N -> (j < 3)%N ->
            Rabs (nth 0 [:: 1; 2; 4] i - 2) < Rabs (nth 0 [:: 1; 2; 4] j - 2) ->
            nth 0 post j < nth 0 post i
        & forall k, (k < 3)%N -> nth 0 post k = 1 ->
            forall j, (j < 3)%N ->
              Rabs (nth 0 [:: 1; 2; 4] k - 2) <= Rabs (nth 0 [:: 1; 2; 4] j - 2)].
Proof.
  have [] := @map_with_more_data
               (LinearMaximumAprioriAgent.Build_params 3 2 4)
               (Build_params 3 2 (1 / 4) 4 (1 / 4) [:: 1; 2; 4]) 2.
  - rewrite /=; r_lra.
  - rewrite /=; r_lra.
  - rewrite /=; r_lra.
  - by [].
  - by move=> _ H; exact: H.
Defined.

End Ch2_more_data.

Section Ch3_linear_gaussian.

Import Ch3 GRing.Theory Num.Theory.
Local Open Scope ring_scope.

Variable F : realFieldType.

Lemma np_inv_unit (n : nat) (A : 'M[F]_n) :
  A \in unitmx -> np_inv A = Ok (invmx A) /\ is_inverse A (invmx A).
Proof.
  by move=> HA; rewrite /np_inv HA; split=> //; split; rewrite ?mulmxV ?mulVmx.
Qed.

Lemma np_mean_axis0_sample_mean (n c : nat) (y : 'M[F]_(n, c)) :
  np_mean_axis0 y = sample_mean y.
Proof.
  apply/matrixP => k j; rewrite /np_mean_axis0 /sample_mean !mxE summxE.
  rewrite mulrC; congr (_ * _); apply: eq_bigr => i _.
  by rewrite !mxE.
Qed.

Variables (C : nat) (Grid P : Type).
Variable mvn_pdf : Grid -> 'cV[F]_C -> 'M[F]_C -> result P.

Import FactorAnalysisAgent.

(** C5.  For a batch [y] of [N] observation vectors and invertible [cov_x],
    [cov_y] and [inv(cov_x) + N * inv(cov_y)], [infer_states] stores as
    posterior covariance the inverse of [inv(cov_x) + N * inv(cov_y)] and as
    posterior mean [cov_posterior @ (inv(cov_y) @ (N * mean(y)) + inv(cov_x)
    @ mu_x)], [mean(y)] being the sample mean of the [N] observations.  (The
    call only raises if SciPy's density over the plotting grid does, after
    both have been stored.) *)
Theorem fa_infer_states_posterior
    (p : params F C Grid) (y : 'M[F]_(N p, C)) :
  cov_x p \in unitmx -> cov_y p \in unitmx ->
  invmx (cov_x p) + (N p)%:R *: invmx (cov_y p) \in unitmx ->
  exists (Pi_x Pi_y Sigma : 'M[F]_C) (mu : 'cV[F]_C),
    [/\ is_inverse (cov_x p) Pi_x, is_inverse (cov_y p) Pi_y,
        is_inverse (Pi_x + (N p)%:R *: Pi_y) Sigma,
        mu = Sigma *m (Pi_y *m ((N p)%:R *: sample_mean y) + Pi_x *m mu_x p)
      & let (r, self') := infer_states mvn_pdf y (init P p) in
        [/\ cov_posterior self' = Some Sigma,
            mean_posterior self' = Some mu
          & match mvn_pdf (grid p) mu Sigma with
            | Ok v => r = Ok tt /\ posterior self' = Some v
            | Raise e => r = Raise e /\ posterior self' = None
            end]].
Proof.
  move=> Hx Hy Hs.
  have [Ex Ix] := np_inv_unit Hx.
  have [Ey Iy] := np_inv_unit Hy.
  have [Es Is] := np_inv_unit Hs.
  exists (invmx (cov_x p)), (invmx (cov_y p)).
  exists (invmx (invmx (cov_x p) + (N p)%:R *: invmx (cov_y p))).
  set Sigma := invmx (_ + _).
  exists (Sigma *m (invmx (cov_y p) *m ((N p)%:R *: sample_mean y)
                    + invmx (cov_x p) *m mu_x p)).
  split=> //.
  rewrite /infer_states /bind /get /lift /modify /= Ex Ey Es /=.
  rewrite np_mean_axis0_sample_mean -/Sigma.
  by case: (mvn_pdf _ _ _) => [v|e] /=.
Qed.

End Ch3_linear_gaussian.

Section Ch3_EM.

Import Ch3 GRing.Theory Num.Theory.
Local Open Scope ring_scope.

Variable F : realFieldType.
Variables (C D N : nat).
Variable Y : 'M[F]_(D, N).

Import FactorAnalysisEMAgent.

Lemma load_ok (T : Type) (d : T) (a : seq T) (j : nat) :
  (j < size a)%N -> load d a j = Ok (nth d a j).
Proof. by rewrite /load => ->. Qed.

Lemma store_ok (T : Type) (d : T) (a : seq T) (j : nat) (v : T) :
  (j < size a)%N -> store d a j v = Ok (set_nth d a j v).
Proof. by rewrite /store => ->. Qed.

Lemma size_store (T : Type) (d : T) (a : seq T) (j : nat) (v : T) :
  (j < size a)%N -> size (set_nth d a j v) = size a.
Proof. by move=> Hj; rewrite size_set_nth; apply/maxn_idPr. Qed.

Lemma nth_store (T : Type) (d : T) (a : seq T) (j i : nat) (v : T) :
  nth d (set_nth d a j v) i = if i == j then v else nth d a i.
Proof. by rewrite nth_set_nth. Qed.

(** The M-step of the last iteration leaves every attribute as it is. *)
Lemma learn_parameters_last (self : t F C D N) (j : nat) :
  (J (prm self) <= j + 1)%N -> (_learn_parameters Y j self).2 = self.
Proof.
  rewrite leqNgt => /negbTE Hj.
  rewrite /_learn_parameters /bind /get /lift /=.
  case: (attr _) => [pms|e] //=.
  case: (load _ _ _) => [pcj|e] //=.
  by rewrite Hj.
Qed.

(** The diagonal restriction of the M-step. *)
Lemma diag_diag_is_diag (n : nat) (A : 'M[F]_n) : is_diag_mx (diag_diag A).
Proof. exact: diag_mx_is_diag. Qed.

(** One E-step, run on a state whose cells [j] exist. *)
Lemma infer_states_run (self : t F C D N) (j : nat) :
  (j < size (Theta self))%N -> (j < size (cov_y self))%N ->
  (j < size (posterior_cov self))%N -> (j < size (posterior_mean self))%N ->
  let Th := nth 0 (Theta self) j in
  let cy := nth 0 (cov_y self) j in
  Th *m Th^T + cy \in unitmx ->
  _infer_states Y j self =
  (Ok tt,
   set_posterior_mean
     (set_nth 0 (posterior_mean self) j
        (np_mean_axis1 (em_posterior_mean_s Y Th cy)))
     (set_posterior_cov
        (set_nth 0 (posterior_cov self) j (em_posterior_cov Th cy))
        (set_posterior_mean_s (em_posterior_mean_s Y Th cy) self))).
Proof.
  move=> H1 H2 H3 H4 Th cy Hu.
  rewrite /_infer_states /bind /get /lift /modify /=.
  rewrite !load_ok // -/Th -/cy /np_inv Hu /=.
  by rewrite !store_ok.
Qed.

(** One M-step that is not the last. *)
Lemma learn_parameters_run (self : t F C D N) (j : nat)
    (pms : 'M[F]_(C, N)) (Sv : 'M[F]_D) :
  posterior_mean_s self = Some pms -> S self = Some Sv ->
  (j < size (posterior_cov self))%N ->
  (j + 1 < J (prm self))%N ->
  (j + 1 < size (Theta self))%N -> (j + 1 < size (cov_y self))%N ->
  let delta := Y *m pms^T in
  let gamma := pms *m pms^T + N%:R *: nth 0 (posterior_cov self) j in
  gamma \in unitmx ->
  _learn_parameters Y j self =
  (Ok tt,
   set_cov_y
     (set_nth 0 (cov_y self) (j + 1)
        (diag_diag (Sv - N%:R^-1 *: (delta *m invmx gamma *m delta^T))))
     (set_Theta (set_nth 0 (Theta self) (j + 1) (delta *m invmx gamma)) self)).
Proof.
  move=> Hp HS H1 HJ H2 H3 delta gamma Hu.
  rewrite /_learn_parameters /bind /get /lift /modify /= Hp /= load_ok //=.
  rewrite HJ -/gamma /np_inv Hu /= store_ok //= HS /=.
  rewrite load_ok ?size_store // nth_store eqxx.
  by rewrite store_ok.
Qed.

Lemma learn_parameters_last_run (self : t F C D N) (j : nat)
    (pms : 'M[F]_(C, N)) :
  posterior_mean_s self = Some pms -> (j < size (posterior_cov self))%N ->
  (J (prm self) <= j + 1)%N ->
  _learn_parameters Y j self = (Ok tt, self).
Proof.
  move=> Hp H1; rewrite leqNgt => /negbTE HJ.
  rewrite /_learn_parameters /bind /get /lift /= Hp /= load_ok //=.
  by rewrite HJ.
Qed.

(** One iteration of the loop of [run_EM] keeps the agent on the
    recurrence. *)
Lemma em_iteration (p : params F C D) (k : nat) (self : t F C D N) :
  em_state_upto Y p k self -> (k < J p)%N ->
  let par := em_params Y (Theta_init p) (cov_y_init p) k in
  par.1 *m par.1^T + par.2 \in unitmx ->
  ((k + 1 < J p)%N -> em_gamma Y par.1 par.2 \in unitmx) ->
  exists2 self',
    (_infer_states Y k ;;; _learn_parameters Y k) self = (Ok tt, self')
    & em_state_upto Y p k.+1 self'.
Proof.
  move=> [[Hp HS] [S1 S2 S3 S4] Hpar Hpost] Hk par Hu Hg.
  have [HTh Hcy] := Hpar k (leqnn k) Hk; rewrite -/par in HTh Hcy.
  have HE := @infer_states_run self k.
  rewrite S1 S2 S3 S4 HTh Hcy in HE.
  have {}HE := HE Hk Hk Hk Hk Hu.
  rewrite {1}/bind HE.
  set self1 := set_posterior_mean _ _.
  case: (ltnP (k + 1) (J p)) => HJ.
  - have HM := @learn_parameters_run self1 k
                 (em_posterior_mean_s Y par.1 par.2) (np_cov Y).
    rewrite /= nth_store eqxx size_store ?S2 // S3 S4 Hp in HM.
    have {}HM := HM erefl HS Hk HJ HJ HJ (Hg HJ).
    rewrite HM; eexists; first by reflexivity.
    split; rewrite /= ?size_store ?S1 ?S2 ?S3 ?S4 //.
    + move=> j; rewrite leq_eqVlt ltnS => /orP [/eqP ->|Hj] HjJ.
      * by rewrite !nth_store addn1 eqxx /em_params iterS.
      * rewrite !nth_store addn1 (ltn_eqF (leq_ltn_trans Hj (ltnSn k))).
        exact: Hpar.
    + move=> j; rewrite ltnS leq_eqVlt => /orP [/eqP ->|Hj] HjJ.
      * by rewrite !nth_store eqxx.
      * by rewrite !nth_store (ltn_eqF Hj); exact: Hpost.
  - have HM := @learn_parameters_last_run self1 k
                 (em_posterior_mean_s Y par.1 par.2).
    rewrite /= size_store ?S2 // Hp in HM.
    rewrite (HM erefl Hk HJ); eexists; first by reflexivity.
    split; rewrite /= ?size_store ?S1 ?S2 ?S3 ?S4 //.
    + move=> j Hj HjJ; apply: Hpar => //.
      by rewrite -ltnS; apply: leq_trans HjJ _; rewrite -addn1.
    + move=> j; rewrite ltnS leq_eqVlt => /orP [/eqP ->|Hj] HjJ.
      * by rewrite !nth_store eqxx.
      * by rewrite !nth_store (ltn_eqF Hj); exact: Hpost.
Qed.

Lemma em_loop (p : params F C D) (n k : nat) (self : t F C D N) :
  (k + n = J p)%N ->
  em_invertible Y (Theta_init p) (cov_y_init p) (J p) ->
  em_state_upto Y p k self ->
  exists2 self',
    for_each (iota k n)
      (fun j => _infer_states Y j ;;; _learn_parameters Y j) self
    = (Ok tt, self')
    & em_state_upto Y p (J p) self'.
Proof.
  elim: n k self => [|n IH] k self Hkn Hinv Hst.
  - by exists self => //; rewrite -Hkn addn0.
  - have Hk : (k < J p)%N by rewrite -Hkn -addSnnS leq_addr.
    have [Hu Hg] := Hinv k Hk.
    have [self1 Hrun1 Hst1] := em_iteration Hst Hk Hu Hg.
    have [|self2 Hrun2 Hst2] := IH k.+1 self1 _ Hinv Hst1.
      by rewrite addSnnS.
    exists self2 => //.
    by rewrite [iota _ _]/= [for_each _ _]/= {1}/bind Hrun1.
Qed.

Lemma em_init (p : params F C D) :
  (0 < J p)%N ->
  exists2 self0, init N p = Ok self0
    & em_state_upto Y p 0 (set_S (np_cov Y) self0).
Proof.
  move=> HJ; rewrite /init /= !store_ok ?size_nseq //.
  eexists; first by reflexivity.
  split; rewrite /= ?size_store ?size_nseq //.
  by move=> j; rewrite leqn0 => /eqP -> _; rewrite !nth_store.
Qed.

Lemma run_EM_unfold (self : t F C D N) :
  run_EM Y self =
  for_each (iota 0 (J (prm self)))
    (fun j => _infer_states Y j ;;; _learn_parameters Y j)
    (set_S (np_cov Y) self).
Proof. by []. Qed.

(** C6.  With every inverted matrix invertible, [run_EM] returns, and in the
    agent it leaves, for every iteration [j < J] and with [Theta[j]],
    [cov_y[j]] the parameters of that iteration:
    - (E-step) [beta = Theta[j]^T (Theta[j] Theta[j]^T + cov_y[j])^-1], cell
      [j] of [posterior_mean] is [beta @ Y] averaged over the samples and
      cell [j] of [posterior_cov] is [I - beta @ Theta[j]];
    - (M-step) if [j + 1 < J], [Theta[j+1] = delta @ inv(gamma)] with
      [delta = Y @ (beta @ Y)^T] and [gamma = (beta @ Y) @ (beta @ Y)^T +
      N * posterior_cov[j]], and [cov_y[j+1] = diag(diag(Cov(Y) - Theta[j+1]
      @ delta^T / N))], a diagonal matrix;
    - if not ([J <= j + 1]), the M-step changes no attribute at all.
    The arrays keep their [J] cells, cell [0] of the parameters holding the
    initial values: the loop is the [J] iterations [j = 0 .. J-1], with no
    other exit. *)
Theorem run_EM_iterations (p : params F C D) :
  (0 < J p)%N ->
  em_invertible Y (Theta_init p) (cov_y_init p) (J p) ->
  exists self0 self' : t F C D N,
    [/\ init N p = Ok self0 /\ run_EM Y self0 = (Ok tt, self'),
        [/\ size (posterior_mean self') = J p,
            size (posterior_cov self') = J p,
            size (Theta self') = J p
          & size (cov_y self') = J p],
        nth 0 (Theta self') 0 = Theta_init p /\
        nth 0 (cov_y self') 0 = cov_y_init p,
        forall j, (j < J p)%N ->
          let Th := nth 0 (Theta self') j in
          let cy := nth 0 (cov_y self') j in
          let beta := Th^T *m invmx (Th *m Th^T + cy) in
          let delta := Y *m (beta *m Y)^T in
          let gamma := (beta *m Y) *m (beta *m Y)^T
                       + N%:R *: nth 0 (posterior_cov self') j in
          [/\ is_inverse (Th *m Th^T + cy) (invmx (Th *m Th^T + cy)),
              nth 0 (posterior_mean self') j = np_mean_axis1 (beta *m Y),
              nth 0 (posterior_cov self') j = 1%:M - beta *m Th
            & (j + 1 < J p)%N ->
              [/\ is_inverse gamma (invmx gamma),
                  nth 0 (Theta self') (j + 1) = delta *m invmx gamma,
                  nth 0 (cov_y self') (j + 1)
                  = diag_diag (np_cov Y
                               - N%:R^-1 *: (nth 0 (Theta self') (j + 1)
                                             *m delta^T))
                & is_diag_mx (nth 0 (cov_y self') (j + 1))]]
      & forall (self : t F C D N) (j : nat),
          (J (prm self) <= j + 1)%N -> (_learn_parameters Y j self).2 = self].
Proof.
  move=> HJ Hinv.
  have [self0 Hinit Hst0] := em_init HJ.
  have Hp0 : prm self0 = p by case: Hst0 => [[]].
  have [self' Hrun [[Hp HS] [S1 S2 S3 S4] Hpar Hpost]] :=
    em_loop (add0n (J p)) Hinv Hst0.
  have H0 := Hpar 0%N (leq0n _) HJ.
  exists self0, self'; split=> //.
  - by split=> //; rewrite run_EM_unfold Hp0.
  - move=> j Hj Th cy beta delta gamma.
    have [HTh Hcy] := Hpar j (ltnW Hj) Hj.
    have [Hpc Hpm] := Hpost j Hj Hj.
    have [Hu Hg] := Hinv j Hj.
    rewrite -HTh -Hcy -/Th -/cy in Hpc Hpm Hu Hg.
    split=> //.
    + by split; rewrite ?mulmxV ?mulVmx.
    + move=> Hj1.
      have Hgam : gamma = em_gamma Y Th cy by rewrite /gamma Hpc.
      have [HTh1 Hcy1] := Hpar (j + 1)%N (ltnW Hj1) Hj1.
      have HTn : nth 0 (Theta self') (j + 1) = delta *m invmx gamma.
        by rewrite HTh1 addn1 /em_params iterS -/(em_params _ _ _ j)
             /em_next /= -HTh -Hcy -/Th -/cy -Hgam.
      have Hcn : nth 0 (cov_y self') (j + 1)
                 = diag_diag (np_cov Y - N%:R^-1 *: (delta *m invmx gamma
                                                     *m delta^T)).
        by rewrite Hcy1 addn1 /em_params iterS -/(em_params _ _ _ j)
             /em_next /= -HTh -Hcy -/Th -/cy -Hgam.
      split=> //.
      * by rewrite Hgam; split; rewrite ?mulmxV ?mulVmx ?Hg.
      * by rewrite Hcn HTn.
      * by rewrite Hcn; exact: diag_diag_is_diag.
  - exact: learn_parameters_last.
Qed.

End Ch3_EM.

Section Ch3_regression.

Import Ch3 GRing.Theory Num.Theory Order.Theory.
Local Open Scope ring_scope.

Variable F : realFieldType.

(** *** Sums of squares *)

Lemma sum_sq_mx (n : nat) (u : 'cV[F]_n) : sum_sq u = (u^T *m u) 0 0.
Proof.
  rewrite /sum_sq mxE; apply: eq_bigr => i _.
  by rewrite mxE expr2.
Qed.

Lemma sum_sq_ge0 (n : nat) (u : 'cV[F]_n) : 0 <= sum_sq u.
Proof. by apply: sumr_ge0 => i _; exact: sqr_ge0. Qed.

Lemma sum_sq_eq0 (n : nat) (u : 'cV[F]_n) : sum_sq u = 0 -> u = 0.
Proof.
  move=> /eqP H0.
  have Hall : all (fun i : 'I_n => true ==> ((u i 0) ^+ 2 == 0))
                (index_enum 'I_n).
    by rewrite -psumr_eq0 // => i _; exact: sqr_ge0.
  apply/matrixP => i j; rewrite ord1 mxE.
  have := allP Hall i (mem_index_enum i); rewrite /= sqrf_eq0.
  by move=> /eqP.
Qed.

(** *** The normal equation *)

(** A matrix of full column rank has an invertible Gram matrix. *)
Lemma gram_unit (n k : nat) (X : 'M[F]_(n, k)) :
  \rank X = k -> X^T *m X \in unitmx.
Proof.
  move=> Hr; rewrite -row_free_unit; apply: inj_row_free => v Hv.
  have Hf : row_free X^T by rewrite /row_free mxrank_tr Hr.
  have H0 : (v *m X^T)^T = 0.
    apply: sum_sq_eq0; rewrite sum_sq_mx.
    have -> : ((v *m X^T)^T)^T *m (v *m X^T)^T = v *m (X^T *m X) *m v^T.
      by rewrite trmxK trmx_mul trmxK !mulmxA.
    by rewrite Hv mul0mx mxE.
  apply/eqP; rewrite -(mulmx_free_eq0 v Hf); apply/eqP.
  by rewrite -(trmxK (v *m X^T)) H0 trmx0.
Qed.

(** On a matrix of full column rank the pseudo-inverse is the matrix of the
    normal equation. *)
Lemma pinv_normal_equation (n k : nat) (X : 'M[F]_(n, k)) (P : 'M[F]_(k, n)) :
  \rank X = k -> penrose X P -> P = invmx (X^T *m X) *m X^T.
Proof.
  move=> Hr [H1 _ H3 _]; have Hu := gram_unit Hr.
  have HX : X^T *m X *m P = X^T.
    by rewrite -mulmxA -H3 -trmx_mul H1.
  have -> : invmx (X^T *m X) *m X^T = invmx (X^T *m X) *m (X^T *m X *m P).
    by rewrite HX.
  by rewrite mulmxA mulVmx // mul1mx.
Qed.

Lemma sum_sq_opp (n : nat) (u : 'cV[F]_n) : sum_sq (- u) = sum_sq u.
Proof. by apply: eq_bigr => i _; rewrite mxE sqrrN. Qed.

Lemma sum_sq_add_orth (n : nat) (a b : 'cV[F]_n) :
  a^T *m b = 0 -> sum_sq (a + b) = sum_sq a + sum_sq b.
Proof.
  move=> Hab; have Hba : b^T *m a = 0.
    by rewrite -(trmxK (b^T *m a)) trmx_mul trmxK Hab trmx0.
  rewrite !sum_sq_mx [(a + b)^T]linearD /= mulmxDl !mulmxDr Hab Hba addr0 add0r.
  by rewrite mxE.
Qed.

(** The residual of the normal-equation solution is orthogonal to the
    columns of [X]. *)
Lemma normal_equation_orth (n k : nat) (X : 'M[F]_(n, k)) (y : 'cV[F]_n) :
  \rank X = k ->
  X^T *m (X *m (invmx (X^T *m X) *m X^T *m y) - y) = 0.
Proof.
  move=> /gram_unit Hu.
  by rewrite mulmxBr !mulmxA mulmxV // mul1mx subrr.
Qed.

Lemma orth_columns (n k : nat) (X : 'M[F]_(n, k)) (r : 'cV[F]_n)
    (d : 'cV[F]_k) :
  X^T *m r = 0 -> r^T *m (X *m d) = 0.
Proof.
  move=> H0; rewrite mulmxA.
  have -> : r^T *m X = (X^T *m r)^T by rewrite trmx_mul trmxK.
  by rewrite H0 trmx0 mul0mx.
Qed.

(** A parameter vector that does at least as well as the normal-equation
    solution is that solution. *)
Lemma least_squares_unique (n k : nat) (X : 'M[F]_(n, k)) (y : 'cV[F]_n)
    (th : 'cV[F]_k) :
  \rank X = k ->
  let th0 := invmx (X^T *m X) *m X^T *m y in
  sum_sq (X *m th - y) <= sum_sq (X *m th0 - y) -> th = th0.
Proof.
  move=> Hr th0 Hle.
  have Horth : (X *m th0 - y)^T *m (X *m (th - th0)) = 0.
    exact: orth_columns (normal_equation_orth y Hr).
  have Hsplit : X *m th - y = (X *m th0 - y) + X *m (th - th0).
    by rewrite mulmxBr [RHS]addrC addrA subrK.
  have H0 : sum_sq (X *m (th - th0)) = 0.
    apply/eqP; rewrite eq_le sum_sq_ge0 andbT.
    by move: Hle; rewrite Hsplit (sum_sq_add_orth Horth) gerDl.
  have {}H0 := sum_sq_eq0 H0.
  have Hf : row_free X^T by rewrite /row_free mxrank_tr Hr.
  apply/eqP; rewrite -subr_eq0 -trmx_eq0 -(mulmx_free_eq0 _ Hf).
  by rewrite -trmx_mul H0 trmx0.
Qed.

(** The normal-equation solution has the least residual sum of squares. *)
Lemma normal_equation_least (n k : nat) (X : 'M[F]_(n, k)) (y : 'cV[F]_n)
    (th : 'cV[F]_k) :
  \rank X = k ->
  sum_sq (X *m (invmx (X^T *m X) *m X^T *m y) - y) <= sum_sq (X *m th - y).
Proof.
  move=> Hr; set th0 := _ *m y.
  have Horth : (X *m th0 - y)^T *m (X *m (th - th0)) = 0.
    exact: orth_columns (normal_equation_orth y Hr).
  have -> : X *m th - y = (X *m th0 - y) + X *m (th - th0).
    by rewrite mulmxBr [RHS]addrC addrA subrK.
  by rewrite (sum_sq_add_orth Horth) lerDl sum_sq_ge0.
Qed.

(** *** The reference model on the augmented matrix *)

Lemma lr_predict_insert_ones (c k : nat) (m : linear_model F c)
    (X : 'M[F]_(k, c)) :
  insert_ones X *m lr_params m = lr_predict m X.
Proof.
  rewrite /insert_ones /lr_params /lr_predict mul_row_col mul_mx_scalar addrC.
  by congr (_ + _); apply/matrixP => i j; rewrite !mxE mulr1.
Qed.

Lemma residual_sum_sq_insert_ones (c n : nat) (X : 'M[F]_(n, c))
    (y : 'cV[F]_n) (m : linear_model F c) :
  residual_sum_sq X y m = sum_sq (insert_ones X *m lr_params m - y).
Proof.
  by rewrite /residual_sum_sq lr_predict_insert_ones -sum_sq_opp opprB.
Qed.

Lemma lr_params_model_of (c : nat) (th : 'cV[F]_(1 + c)) :
  lr_params (model_of th) = th.
Proof. by rewrite /lr_params /model_of /= -mx11_scalar vsubmxK. Qed.

Lemma penrose_normal_pinv (n k : nat) (X : 'M[F]_(n, k)) :
  \rank X = k -> penrose X (normal_pinv X).
Proof.
  move=> /gram_unit Hu; rewrite /normal_pinv.
  have HPX : invmx (X^T *m X) *m X^T *m X = 1%:M.
    by rewrite -mulmxA mulVmx.
  have Hsym : (invmx (X^T *m X))^T = invmx (X^T *m X).
    by rewrite trmx_inv trmx_mul trmxK.
  split.
  - by rewrite -mulmxA HPX mulmx1.
  - by rewrite HPX mul1mx.
  - by rewrite !trmx_mul trmxK Hsym mulmxA.
  - by rewrite HPX trmx1.
Qed.

Import MultipleLinearRegressionAgent.

Variable pinv : forall m n : nat, 'M[F]_(m, n) -> 'M[F]_(n, m).

(** X23.  In exact arithmetic: when the augmented data matrix
    [X = [1 | X_star]] has full column rank (and [pinv(X)] is its
    Moore-Penrose pseudo-inverse), [mle_theta] returns [pinv(X) @ y], which
    is the normal-equation solution [(X^T X)^-1 X^T y]; [learn_parameters]
    returns and the attribute [theta] then holds that vector, which has the
    least residual sum of squares; and for every least-squares reference
    model fitted on the same data, the parameter vector
    [[intercept_, coef_]] is that vector and, on any test matrix, [predict]
    returns, leaves [theta] as it is and the attribute [y_pred] then holds
    the reference's predictions. *)
Theorem regression_matches_least_squares
    (c n : nat) (X_star : 'M[F]_(n, c)) (y : 'cV[F]_n) :
  let X := build_data_matrix X_star in
  let th0 := invmx (X^T *m X) *m X^T *m y in
  let fitted := (learn_parameters pinv X_star y (init F c)).2 in
  \rank X = (1 + c)%N -> penrose X (pinv X) ->
  [/\ mle_theta pinv X y = pinv X *m y,
      is_inverse (X^T *m X) (invmx (X^T *m X)) /\ mle_theta pinv X y = th0,
      (learn_parameters pinv X_star y (init F c)).1 = Ok tt /\
      theta fitted = Some th0,
      least_squares_fit X_star y (model_of th0)
    & forall m : linear_model F c, least_squares_fit X_star y m ->
        lr_params m = th0 /\
        forall (k : nat) (X_test : 'M[F]_(k, c)),
          [/\ (predict X_test fitted).1 = Ok tt,
              y_pred (predict X_test fitted).2
              = Some (existT (fun k' => 'cV[F]_k') k (lr_predict m X_test))
            & theta (predict X_test fitted).2 = Some th0]].
Proof.
  move=> X th0 fitted Hr Hp.
  have Hu := gram_unit Hr.
  have Hth : mle_theta pinv X y = th0.
    by rewrite /mle_theta (pinv_normal_equation Hr Hp).
  have Hls : least_squares_fit X_star y (model_of th0).
    move=> m'; rewrite !residual_sum_sq_insert_ones lr_params_model_of.
    exact: normal_equation_least.
  have Hfit : theta fitted = Some th0.
    by rewrite /fitted /learn_parameters /modify /= -/X Hth.
  split=> //.
  - by split=> //; split; rewrite ?mulmxV ?mulVmx.
  - move=> m Hm.
    have Hm0 : lr_params m = th0.
      apply: least_squares_unique => //.
      have := Hm (model_of th0).
      by rewrite !residual_sum_sq_insert_ones lr_params_model_of.
    split=> // k X_test.
    rewrite /predict /_generating_function /bind /get /ret /modify /= -/X Hth.
    by rewrite /= -Hm0 lr_predict_insert_ones.
Qed.

End Ch3_regression.

Section Ch3_environments.

Import Ch3 GRing.Theory Num.Theory.
Local Open Scope ring_scope.

Variable F : realFieldType.
Variables (C D c : nat).
Variable mvn_rvs : nat -> forall d : nat, 'M[F]_d -> 'cV[F]_d.
Variable normal : nat -> F -> F.

(** The regression environment is affine in the state: intercept plus the
    product with the remaining parameters. *)
Lemma regression_generating_function
    (p : StaticEnvironmentRegression.params F c) (x_star : 'cV[F]_c) :
  StaticEnvironmentRegression._generating_function p
    (col_mx (const_mx 1) x_star)
  = usubmx (StaticEnvironmentRegression.theta_star p) 0 0
    + (x_star^T *m dsubmx (StaticEnvironmentRegression.theta_star p)) 0 0.
Proof.
  rewrite /StaticEnvironmentRegression._generating_function.
  rewrite -{1}(vsubmxK (StaticEnvironmentRegression.theta_star p)).
  rewrite tr_col_mx mul_row_col mxE; congr (_ + _).
  by rewrite mxE big_ord1 !mxE mul1r.
Qed.

(** C9, amended.  The vector environments of part_001 and of the EM
    notebook return [f(x + eps_x) + eps_y], that is [f(x) + Theta eps_x +
    eps_y]: the state is perturbed by a draw [eps_x] with covariance
    [cov_x_star] before the affine generating function is applied, and a
    second draw [eps_y] with covariance [cov_y_star] is added to the
    observation.  Two draws are consumed.  The environment of part_001 is
    left as it was; that of the EM notebook keeps [x + eps_x] in
    [x_star_noise].  The scalar environment of the regression notebooks
    returns [f(x) + eps] with one draw and is left as it was. *)
Theorem generate_noise_terms :
  [/\ forall (env : StaticEnvironment.t F C D) (x : 'cV[F]_C) (g : nat),
        let p := StaticEnvironment.prm env in
        let eps_x := mvn_rvs g (StaticEnvironment.cov_x_star p) in
        let eps_y := mvn_rvs g.+1 (StaticEnvironment.cov_y_star p) in
        StaticEnvironment.generate mvn_rvs x (env, g)
        = (Ok (StaticEnvironment._generating_function p (x + eps_x) + eps_y),
           (env, g.+2))
        /\ StaticEnvironment._generating_function p (x + eps_x) + eps_y
           = StaticEnvironment._generating_function p x
             + StaticEnvironment.Theta_star p *m eps_x + eps_y,
      forall (env : StaticEnvironmentEM.t F C D) (x : 'cV[F]_C) (g : nat),
        let p := StaticEnvironmentEM.prm env in
        let eps_x := mvn_rvs g (StaticEnvironmentEM.cov_x_star p) in
        let eps_y := mvn_rvs g.+1 (StaticEnvironmentEM.cov_y_star p) in
        StaticEnvironmentEM.generate mvn_rvs x (env, g)
        = (Ok (StaticEnvironmentEM._generating_function p (x + eps_x) + eps_y),
           (StaticEnvironmentEM.Build_t p (Some (x + eps_x)), g.+2))
    & forall (env : StaticEnvironmentRegression.t F c) (x : 'cV[F]_c)
             (g : nat),
        let p := StaticEnvironmentRegression.prm env in
        let th := StaticEnvironmentRegression.theta_star p in
        StaticEnvironmentRegression.generate normal x (env, g)
        = (Ok (usubmx th 0 0 + (x^T *m dsubmx th) 0 0
               + normal g (StaticEnvironmentRegression.y_star_std p)),
           (env, g.+1))].
Proof.
  split.
  - move=> env x g p eps_x eps_y; split=> //.
    rewrite /StaticEnvironment._generating_function mulmxDr.
    by rewrite [_ + _ + StaticEnvironment.b_star p]addrAC.
  - by [].
  - move=> env x g p th.
    rewrite /StaticEnvironmentRegression.generate /bind /get /ret /=.
    by rewrite regression_generating_function.
Qed.

End Ch3_environments.

Section Ch3_part_000.

Import Ch3 GRing.Theory Num.Theory.
Local Open Scope ring_scope.

Variable F : realFieldType.
Variable pinv : forall m n : nat, 'M[F]_(m, n) -> 'M[F]_(n, m).
Variable c : nat.

Import MultipleLinearRegressionAgent0.

(** C10.  In the part_000 notebook [learn_parameters] calls the
    one-parameter module-level [build_data_matrix] with the two arguments
    [self] and [X_star]: whatever the input, the call raises [TypeError]
    before anything is estimated, and the agent is left as it was, [theta]
    included. *)
Theorem learn_parameters_raises_TypeError
    (self : t F c) (n : nat) (X_star : 'M[F]_(n, c)) (y : 'cV[F]_n) :
  [/\ call (build_data_matrix F c) [:: PySelf self; PyArray c X_star]
      = Raise TypeError,
      learn_parameters pinv X_star y self = (Raise TypeError, self)
    & theta (learn_parameters pinv X_star y self).2 = theta self].
Proof. by []. Qed.

(** The same body with the method [self.build_data_matrix(X_star)], as in
    3a_supervised_linear_regression, is called with the right number of
    arguments. *)
Lemma build_data_matrix_method_call
    (self : t F c) (n : nat) (X_star : 'M[F]_(n, c)) :
  call (build_data_matrix_method F c) [:: PySelf self; PyArray c X_star]
  = Ok (PyArray c (insert_ones X_star)).
Proof. by []. Qed.

End Ch3_part_000.

Section Ch3_instances.

Import Ch3 GRing.Theory Num.Theory.
Local Open Scope ring_scope.

(** *** Scalar matrices *)

Lemma scalar_unit (F : realFieldType) (n : nat) (a : F) :
  a != 0 -> (a%:M : 'M[F]_n) \in unitmx.
Proof. by move=> Ha; rewrite unitmxE det_scalar unitfE expf_neq0. Qed.

Lemma scalar_mx_add (F : realFieldType) (n : nat) (a b : F) :
  a%:M + b%:M = (a + b)%:M :> 'M[F]_n.
Proof. by rewrite raddfD. Qed.

(** C9, as stated, fails on the environment of part_001: with
    [Theta_star = 1], [b_star = 0], the state [0] and draws equal to [1] the
    observation is [1 * (0 + 1) + 0 + 1 = 2], while the generating function
    at the state plus one observation-noise draw is [0 + 1 = 1]. *)
Lemma generate_perturbs_state :
  ~ @StaticEnvironment.single_noise_term rat 1 1 ones_rvs.
Proof.
  move=> H.
  have [tick [Hy _]] :=
    H (StaticEnvironment.Build_t
         (StaticEnvironment.Build_params (1%:M : 'M[rat]_1) 1%:M 1%:M 0))
      0 0%N.
  move: Hy; rewrite /StaticEnvironment.generate /bind /get /ret /=.
  rewrite /StaticEnvironment._generating_function /= /ones_rvs.
  rewrite !mul1mx !addr0 add0r => - [] /matrixP /(_ 0 0).
  by rewrite !mxE.
Qed.

(** The environment of the EM notebook also changes its own state. *)
Lemma generate_em_side_effect :
  ~ @StaticEnvironmentEM.single_noise_term rat 1 1 ones_rvs.
Proof.
  move=> H.
  have [tick [_]] :=
    H (StaticEnvironmentEM.Build_t
         (StaticEnvironmentEM.Build_params (1%:M : 'M[rat]_1) 1%:M 1%:M 0)
         None)
      0 0%N.
  by [].
Qed.

(** The linear-Gaussian update on two observations of a two-dimensional
    state, unit covariances. *)
Lemma fa_infer_states_posterior_witness :
  let p := FactorAnalysisAgent.Build_params
             (1%:M : 'M[rat]_2) 1%:M 0 tt 2 in
  let y : 'M[rat]_(2, 2) := 0 in
  exists (Pi_x Pi_y Sigma : 'M[rat]_2) (mu : 'cV[rat]_2),
    [/\ is_inverse 1%:M Pi_x, is_inverse 1%:M Pi_y,
        is_inverse (Pi_x + 2%:R *: Pi_y) Sigma,
        mu = Sigma *m (Pi_y *m (2%:R *: sample_mean y) + Pi_x *m 0)
      & let (r, self') :=
          FactorAnalysisAgent.infer_states (fun _ _ _ => Ok tt) y
            (FactorAnalysisAgent.init unit p) in
        [/\ FactorAnalysisAgent.cov_posterior self' = Some Sigma,
            FactorAnalysisAgent.mean_posterior self' = Some mu
          & r = Ok tt /\ FactorAnalysisAgent.posterior self' = Some tt]].
Proof.
  apply: (@fa_infer_states_posterior rat 2 unit unit (fun _ _ _ => Ok tt)
            (FactorAnalysisAgent.Build_params
               (1%:M : 'M[rat]_2) 1%:M 0 tt 2) 0).
  - exact: unitmx1.
  - exact: unitmx1.
  - by rewrite /= invmx1 scalemx1 scalar_mx_add; apply: scalar_unit.
Defined.

(** *** A training set with two samples and one feature *)

Lemma rank_two_samples : \rank (insert_ones two_samples) = (1 + 1)%N.
Proof.
  apply: mxrank_unit; rewrite unitmxE unitfE.
  have Htrig : is_trig_mx (insert_ones two_samples).
    apply/is_trig_mxP => i j.
    case: i => [[|[|i]] Hi] //; case: j => [[|[|j]] Hj] //= _.
    rewrite /insert_ones mxE; case: splitP => k /= Hk; first by case: k Hk => [[|k] Hk'].
    by rewrite mxE.
  rewrite (det_trig Htrig) big_ord_recl big_ord1.
  rewrite /insert_ones !mxE.
  case: splitP => [k _|k /= Hk]; last by [].
  case: splitP => [k' /= Hk'|k' /= Hk']; first by case: k' Hk' => [[|k'] Hk''].
  by rewrite !mxE.
Qed.

Lemma regression_matches_least_squares_witness :
  let X_star := two_samples in
  let y : 'cV[rat]_2 := const_mx 1 in
  let pinv := @normal_pinv rat in
  let X := MultipleLinearRegressionAgent.build_data_matrix X_star in
  let th0 := invmx (X^T *m X) *m X^T *m y in
  let fitted :=
    (MultipleLinearRegressionAgent.learn_parameters pinv X_star y
       (MultipleLinearRegressionAgent.init rat 1)).2 in
  [/\ MultipleLinearRegressionAgent.mle_theta pinv X y = pinv _ _ X *m y,
      is_inverse (X^T *m X) (invmx (X^T *m X)) /\
      MultipleLinearRegressionAgent.mle_theta pinv X y = th0,
      (MultipleLinearRegressionAgent.learn_parameters pinv X_star y
         (MultipleLinearRegressionAgent.init rat 1)).1 = Ok tt /\
      MultipleLinearRegressionAgent.theta fitted = Some th0,
      least_squares_fit X_star y (model_of th0)
    & forall m : linear_model rat 1, least_squares_fit X_star y m ->
        lr_params m = th0 /\
        forall (k : nat) (X_test : 'M[rat]_(k, 1)),
          [/\ (MultipleLinearRegressionAgent.predict X_test fitted).1 = Ok tt,
              MultipleLinearRegressionAgent.y_pred
                (MultipleLinearRegressionAgent.predict X_test fitted).2
              = Some (existT (fun k' => 'cV[rat]_k') k (lr_predict m X_test))
            & MultipleLinearRegressionAgent.theta
                (MultipleLinearRegressionAgent.predict X_test fitted).2
              = Some th0]].
Proof.
  apply: (@regression_matches_least_squares rat (@normal_pinv rat) 1 2
            two_samples (const_mx 1)).
  - exact: rank_two_samples.
  - exact: penrose_normal_pinv rank_two_samples.
Defined.

(** *** Two EM iterations on two samples of a one-dimensional channel *)

Lemma two_ones_gram (a b : rat) :
  (a *: two_ones) *m (b *: two_ones)^T = (a * b * 2%:R)%:M.
Proof.
  apply/matrixP => i j; rewrite !ord1 !mxE big_ord_recl big_ord1 !mxE.
  by rewrite !mulr1 -mulr2n mulr_natr.
Qed.

Lemma np_cov_two_ones : np_cov two_ones = 0.
Proof.
  rewrite /np_cov.
  have -> : \matrix_(i, k) (two_ones i k - np_mean_axis1 two_ones i 0) = 0.
    apply/matrixP => i k; rewrite !mxE big_ord_recl big_ord1 !mxE.
    by apply/eqP.
  by rewrite mul0mx scaler0.
Qed.

Lemma diag_diag_scalar (a : rat) : diag_diag (a%:M : 'M[rat]_1) = a%:M.
Proof. by apply/matrixP => i j; rewrite !ord1 !mxE. Qed.

(** One step of the recurrence on scalar parameters. *)
Lemma em_next_scalar (a b : rat) :
  let beta := a * (a * a + b)^-1 in
  let delta := 1 * beta * 2%:R in
  let gamma := beta * beta * 2%:R + 2%:R * (1 - beta * a) in
  let th := delta * gamma^-1 in
  em_gamma two_ones (a%:M : 'M[rat]_1) (b%:M : 'M[rat]_1) = gamma%:M /\
  em_next two_ones (a%:M : 'M[rat]_1, b%:M : 'M[rat]_1)
  = (th%:M, (- (2%:R^-1 * (th * delta)))%:M).
Proof.
  move=> beta delta gamma th.
  have Hbeta : em_beta (a%:M : 'M[rat]_1) (b%:M : 'M[rat]_1) = beta%:M.
    rewrite /em_beta tr_scalar_mx -scalar_mxM scalar_mx_add invmx_scalar.
    by rewrite -scalar_mxM.
  have Hpms : em_posterior_mean_s two_ones (a%:M : 'M[rat]_1) (b%:M : 'M[rat]_1)
              = beta *: two_ones.
    by rewrite /em_posterior_mean_s Hbeta mul_scalar_mx.
  have Hpc : em_posterior_cov (a%:M : 'M[rat]_1) (b%:M : 'M[rat]_1)
             = (1 - beta * a)%:M.
    by rewrite /em_posterior_cov Hbeta -scalar_mxM -raddfB.
  have Hdelta : em_delta two_ones (a%:M : 'M[rat]_1) (b%:M : 'M[rat]_1)
                = delta%:M.
    by rewrite /em_delta Hpms -{1}(scale1r two_ones) two_ones_gram.
  have Hgamma : em_gamma two_ones (a%:M : 'M[rat]_1) (b%:M : 'M[rat]_1)
                = gamma%:M.
    by rewrite /em_gamma Hpms Hpc two_ones_gram scale_scalar_mx scalar_mx_add.
  split=> //.
  rewrite /em_next /= Hdelta Hgamma invmx_scalar -scalar_mxM -/th.
  rewrite tr_scalar_mx -scalar_mxM scale_scalar_mx np_cov_two_ones sub0r.
  by rewrite -raddfN diag_diag_scalar.
Qed.

Lemma run_EM_iterations_witness :
  let p := FactorAnalysisEMAgent.Build_params 2 (1%:M : 'M[rat]_1)
             (1%:M : 'M[rat]_1) in
  exists self0 self' : FactorAnalysisEMAgent.t rat 1 1 2,
    [/\ FactorAnalysisEMAgent.init 2 p = Ok self0,
        FactorAnalysisEMAgent.run_EM two_ones self0 = (Ok tt, self'),
        size (FactorAnalysisEMAgent.Theta self') = 2%N,
        nth 0 (FactorAnalysisEMAgent.Theta self') 0 = 1%:M
      & is_diag_mx (nth 0 (FactorAnalysisEMAgent.cov_y self') 1)].
Proof.
  have [] := @run_EM_iterations rat 1 1 2 two_ones
               (FactorAnalysisEMAgent.Build_params 2 (1%:M : 'M[rat]_1)
                  (1%:M : 'M[rat]_1)).
  - by [].
  - have [Hg0 Hn0] := em_next_scalar 1 1.
    case=> [|[|j]] // _.
    + have -> : em_params two_ones (1%:M : 'M[rat]_1) (1%:M : 'M[rat]_1) 0
                = (1%:M, 1%:M) by [].
      split; first by rewrite /= tr_scalar_mx -scalar_mxM scalar_mx_add;
                      apply: scalar_unit.
      by move=> _; rewrite Hg0; apply: scalar_unit.
    + have -> : em_params two_ones (1%:M : 'M[rat]_1) (1%:M : 'M[rat]_1) 1
                = em_next two_ones (1%:M, 1%:M) by [].
      rewrite Hn0; split=> //.
      by rewrite /= tr_scalar_mx -scalar_mxM scalar_mx_add; apply: scalar_unit.
  - move=> self0 [self' [[Hinit Hrun] [_ _ HS _] [HT0 _] Hj _]].
    exists self0, self'; split=> //.
    by have [_ _ _ /(_ isT) []] := Hj 0%N isT.
Defined.

End Ch3_instances.

(** * Further properties of the chapter 2 code *)

Section Ch2_further.

Import Ch2 Ch2b.
Local Open Scope R_scope.

(** X1.  [ge_inv] undoes [ge] and [ge] undoes [ge_inv], for a slope other
    than zero. *)
Theorem ge_inv_round_trip (b0 b1 x y : R) :
  b1 <> 0 ->
  ge_inv (ge x b0 b1) b0 b1 = x /\ ge (ge_inv y b0 b1) b0 b1 = y.
Proof. by move=> Hb; rewrite /ge /ge_inv; split; r_field. Qed.

Lemma ge_inv_round_trip_witness :
  ge_inv (ge 2 3 2) 3 2 = 2 /\ ge (ge_inv 7 3 2) 3 2 = 7.
Proof. by apply: ge_inv_round_trip; r_lra. Defined.

(** X2.  From any positive number of observations that all equal the
    generating function at [x_star], the maximum-likelihood agent returns
    [x_star] itself. *)
Theorem mle_recovers_clean_state (b0 b1 x_star : R) (N : nat) :
  (0 < N)%N -> b1 <> 0 ->
  LinearMaximumLikelihoodAgent.posterior_mode
    (LinearMaximumLikelihoodAgent.infer_state
       (LinearMaximumLikelihoodAgent.init
          (LinearMaximumLikelihoodAgent.Build_params b0 b1))
       (nseq N (ge x_star b0 b1)))
  = Some x_star.
Proof.
  move=> HN Hb /=; rewrite np_mean_nseq // /ge.
  by congr Some; r_field.
Qed.

Lemma mle_recovers_clean_state_witness :
  LinearMaximumLikelihoodAgent.posterior_mode
    (LinearMaximumLikelihoodAgent.infer_state
       (LinearMaximumLikelihoodAgent.init
          (LinearMaximumLikelihoodAgent.Build_params 3 2))
       (nseq 30 (ge 2 3 2)))
  = Some 2.
Proof. by apply: mle_recovers_clean_state => //; r_lra. Defined.

(** X3.  The MAP estimate coincides with the maximum-likelihood estimate
    exactly when the prior mean already is the maximum-likelihood
    estimate. *)
Theorem map_equals_mle_iff (b0 b1 mx : R) (y : seq R) (x_map x_mle : R) :
  b1 <> 0 ->
  LinearMaximumAprioriAgent.posterior_mode
    (LinearMaximumAprioriAgent.infer_state
       (LinearMaximumAprioriAgent.init
          (LinearMaximumAprioriAgent.Build_params b0 b1 mx)) y) = Some x_map ->
  LinearMaximumLikelihoodAgent.posterior_mode
    (LinearMaximumLikelihoodAgent.infer_state
       (LinearMaximumLikelihoodAgent.init
          (LinearMaximumLikelihoodAgent.Build_params b0 b1)) y) = Some x_mle ->
  (x_map = x_mle <-> mx = x_mle).
Proof.
  move=> Hb [<-] [<-] /=; set m := np_mean y.
  have Hden : b1 * (b1 * 1) + 1 <> 0 by r_nra.
  have Hgap : (b1 * (m - b0) + mx) / (b1 * (b1 * 1) + 1) - (m - b0) / b1
              = (mx - (m - b0) / b1) / (b1 * (b1 * 1) + 1).
    by r_field; split=> //; r_nra.
  split=> [Heq|->]; last by r_field; split=> //; r_nra.
  have H0 : (mx - (m - b0) / b1) / (b1 * (b1 * 1) + 1) = 0.
    by rewrite -Hgap Heq; r_ring.
  have : mx - (m - b0) / b1 = 0.
    have -> : mx - (m - b0) / b1
              = (mx - (m - b0) / b1) / (b1 * (b1 * 1) + 1)
                * (b1 * (b1 * 1) + 1) by r_field; r_nra.
    by rewrite H0; r_ring.
  by move=> ?; r_lra.
Qed.

Lemma map_equals_mle_iff_witness :
  (2 = 2 <-> 2 = 2).
Proof.
  apply: (@map_equals_mle_iff 3 2 2 [:: 7] 2 2).
  - by r_lra.
  - by rewrite /= /np_mean /=; congr Some; r_field.
  - by rewrite /= /np_mean /=; congr Some; r_field.
Defined.

Import ExactLinearAgent.

(** X4.  On a nonempty grid every entry of the posterior that
    [infer_state] stores is positive and at most [1]. *)
Theorem exact_posterior_in_unit_interval (p : params) (y : seq R) :
  x_range p <> [::] ->
  exists (self' : t) (post : seq R),
    [/\ infer_state y (init p) = (Ok tt, self'),
        posterior self' = Some post,
        size post = size (x_range p)
      & forall i, (i < size (x_range p))%N -> 0 < nth 0 post i <= 1].
Proof.
  move=> Hx; have [m [_ Hub] Hrun] := infer_state_run y Hx.
  eexists; exists [seq exp (v - m) | v <- stored_log_gen_model p y].
  split; [exact: Hrun | by [] | |].
  - by rewrite size_map size_stored_log_gen_model.
  - move=> i Hi; rewrite (nth_map 0) ?size_stored_log_gen_model //.
    by split; [exact: exp_pos | apply: exp_le_1; exact: Hub].
Qed.

Lemma exact_posterior_in_unit_interval_witness :
  let p := Build_params 3 2 (1 / 4) 4 (1 / 4) [:: 1; 2] in
  exists (self' : t) (post : seq R),
    [/\ infer_state [:: 7] (init p) = (Ok tt, self'),
        posterior self' = Some post,
        size post = 2%N
      & forall i, (i < 2)%N -> 0 < nth 0 post i <= 1].
Proof.
  exact: (@exact_posterior_in_unit_interval
            (Build_params 3 2 (1 / 4) 4 (1 / 4) [:: 1; 2]) [:: 7]).
Defined.

Lemma exact_infer_state_empty_grid_aux (p : params) (y : seq R) :
  x_range p = [::] -> posterior (infer_state y (init p)).2 = None.
Proof.
  move=> Hx.
  have Hll : stored_log_likelihood p y = [::].
    by apply: size0nil; rewrite size_stored_log_likelihood Hx.
  rewrite /infer_state /generative_model /bind /get /modify /ret /lift /=.
  rewrite -/(stored_prior p) -/(stored_log_prior p).
  rewrite -/(stored_log_likelihood p y) Hll.
  by rewrite /stored_log_prior /stored_prior Hx.
Qed.

(** X5.  On an empty grid [infer_state] raises [ValueError] (the maximum of
    an empty array): the prior, the log-likelihood, the log-prior and the log
    generative model have been stored as empty arrays by then, and no
    posterior is stored. *)
Theorem exact_infer_state_empty_grid (p : params) (y : seq R) :
  x_range p = [::] ->
  infer_state y (init p)
  = (Raise ValueError,
     {| prm := p; log_likelihood := Some [::]; log_prior := Some [::];
        gen_model := None; evidence := None; posterior := None;
        prior := Some [::]; log_gen_model := Some [::] |}).
Proof.
  move=> Hx.
  have Hll : stored_log_likelihood p y = [::].
    by apply: size0nil; rewrite size_stored_log_likelihood Hx.
  rewrite /infer_state /generative_model /bind /get /modify /ret /lift /=.
  rewrite -/(stored_prior p) -/(stored_log_prior p).
  rewrite -/(stored_log_likelihood p y) Hll.
  by rewrite /stored_log_prior /stored_prior Hx.
Qed.

Lemma exact_infer_state_empty_grid_witness :
  let p := Build_params 3 2 (1 / 4) 4 (1 / 4) [::] in
  infer_state [:: 7] (init p)
  = (Raise ValueError,
     {| prm := p; log_likelihood := Some [::]; log_prior := Some [::];
        gen_model := None; evidence := None; posterior := None;
        prior := Some [::]; log_gen_model := Some [::] |}).
Proof.
  exact: (@exact_infer_state_empty_grid
            (Build_params 3 2 (1 / 4) 4 (1 / 4) [::]) [:: 7]).
Defined.

(** X6.  [infer_state] keeps nothing from an earlier call: run on an agent
    that has already inferred from a batch [y1], it returns the same result
    and leaves the same attributes as on a new agent. *)
Theorem exact_infer_state_forgets (p : params) (y1 y2 : seq R) :
  infer_state y2 (infer_state y1 (init p)).2 = infer_state y2 (init p).
Proof.
  have Hfst : forall s : t,
      prm s = p -> gen_model s = None -> evidence s = None ->
      (posterior s = None \/ x_range p <> [::]) ->
      infer_state y2 s = infer_state y2 (init p).
    move=> s Hp Hg He Hpost.
    rewrite /infer_state /generative_model /bind /get /modify /ret /lift /=.
    rewrite Hp; case Hm: (np_max _) => [m|e] /=.
    - by rewrite /set_posterior /set_log_gen_model /set_log_prior
           /set_log_likelihood /set_prior /= ?Hp ?Hg ?He.
    - case: Hpost => [Hpo|Hx].
      + by rewrite /set_posterior /set_log_gen_model /set_log_prior
             /set_log_likelihood /set_prior /= ?Hp ?Hg ?He ?Hpo.
      + have Hne : stored_log_gen_model p y2 <> [::].
          move=> H0; apply: Hx; apply: size0nil.
          by rewrite -(size_stored_log_gen_model p y2) H0.
        have [m' Hm' _] := np_max_is_max Hne.
        by move: Hm; rewrite -/(stored_prior p) -/(stored_log_prior p)
             -/(stored_log_likelihood p y2) -/(stored_log_gen_model p y2) Hm'.
  apply: Hfst.
  - rewrite /infer_state /generative_model /bind /get /modify /ret /lift /=.
    by case: (np_max _).
  - rewrite /infer_state /generative_model /bind /get /modify /ret /lift /=.
    by case: (np_max _).
  - rewrite /infer_state /generative_model /bind /get /modify /ret /lift /=.
    by case: (np_max _).
  - case Hx: (x_range p) => [|x xs]; last by right.
    by left; rewrite (exact_infer_state_empty_grid_aux y1 Hx).
Qed.

(** *** Products and sums of logarithms *)

Lemma norm_pdf_pos (x loc scale : R) : 0 < scale -> 0 < norm_pdf x loc scale.
Proof.
  move=> Hs; rewrite /norm_pdf.
  apply: Rdiv_lt_0_compat => //; apply: Rdiv_lt_0_compat.
  - exact: exp_pos.
  - exact: sqrt_2PI_pos.
Qed.

Lemma size_prod_axis0 (G : nat) (rows : seq (seq R)) :
  all (fun row => size row == G) rows -> size (prod_axis0 G rows) = G.
Proof.
  elim: rows => [|row rows IH] /=; first by rewrite size_nseq.
  move=> /andP [/eqP Hr Hrs].
  by rewrite size_map size_zip Hr (IH Hrs) minnn.
Qed.

Lemma nth_prod_axis0 (G : nat) (rows : seq (seq R)) (g : nat) :
  all (fun row => size row == G) rows -> (g < G)%N ->
  nth 0 (prod_axis0 G rows) g = np_prod [seq nth 0 row g | row <- rows].
Proof.
  move=> Hall Hg; elim: rows Hall => [|row rows IH] /=.
  - by rewrite nth_nseq Hg.
  - move=> /andP [/eqP Hr Hrs].
    have Hs := size_prod_axis0 Hrs.
    rewrite (nth_map (0, 0)) ?size_zip ?Hr ?Hs ?minnn //.
    by rewrite nth_zip ?Hr ?Hs //= IH.
Qed.

Lemma exp_sum_ln (a : seq R) :
  (forall v, List.In v a -> 0 < v) ->
  exp (np_sum [seq ln v | v <- a]) = np_prod a.
Proof.
  elim: a => [|v a IH] Hpos; first by rewrite /= exp_0.
  have Hv : 0 < v by apply: Hpos; left.
  have Ha : forall w, List.In w a -> 0 < w by move=> w Hw; apply: Hpos; right.
  by rewrite map_cons np_sum_cons exp_plus exp_ln // IH.
Qed.

Lemma log_likelihood_after_infer_state (p : params) (y : seq R) :
  log_likelihood (infer_state y (init p)).2
  = Some (stored_log_likelihood p y).
Proof.
  rewrite /infer_state /generative_model /bind /get /modify /ret /lift /=.
  by case: (np_max _).
Qed.

(** X7.  With [std_y > 0], the exponential of the log-likelihood that
    [infer_state] stores is, at every grid point, the product over the
    samples of their densities: summing in log space and multiplying the
    rows of [norm.pdf(y, loc=mu_y, scale)] with [prod(axis=0)] agree. *)
Theorem exp_log_likelihood_is_product (p : params) (y : seq R) :
  0 < std_y p ->
  let G := size (x_range p) in
  let mu_y := generating_function (beta_0 p) (beta_1 p) (x_range p) in
  exists ll : seq R,
    [/\ log_likelihood (infer_state y (init p)).2 = Some ll,
        size ll = G
      & forall g, (g < G)%N ->
          exp (nth 0 ll g)
          = nth 0 (prod_axis0 G (likelihood_broadcast y mu_y (std_y p))) g].
Proof.
  move=> Hs G mu_y; exists (stored_log_likelihood p y).
  split; first exact: log_likelihood_after_infer_state.
  - exact: size_stored_log_likelihood.
  - move=> g Hg; rewrite nth_stored_log_likelihood //.
    have Hrows : all (fun row : seq R => size row == G)
                   (likelihood_broadcast y mu_y (std_y p)).
      rewrite /likelihood_broadcast; elim: y => [|yn y IH] //=.
      by rewrite IH /mu_y /generating_function !size_map eqxx.
    rewrite (nth_prod_axis0 Hrows Hg) /likelihood_broadcast -map_comp.
    have -> : [seq ln (norm_pdf yn (beta_1 p * nth 0 (x_range p) g + beta_0 p)
                         (std_y p)) | yn <- y]
              = [seq ln v
                | v <- [seq norm_pdf yn (beta_1 p * nth 0 (x_range p) g
                                         + beta_0 p) (std_y p) | yn <- y]].
      by rewrite -map_comp.
    have Hpos : forall v,
        List.In v [seq norm_pdf yn (beta_1 p * nth 0 (x_range p) g + beta_0 p)
                         (std_y p) | yn <- y] -> 0 < v.
      by move=> v /List.in_map_iff [yn [<- _]]; exact: norm_pdf_pos.
    rewrite (exp_sum_ln Hpos).
    congr np_prod; apply: eq_map => yn /=.
    by rewrite (nth_map 0) ?size_map // /mu_y /generating_function
         (nth_map 0).
Qed.

Lemma exp_log_likelihood_is_product_witness :
  let p := Build_params 3 2 (1 / 4) 4 (1 / 4) [:: 1; 2] in
  exists ll : seq R,
    [/\ log_likelihood (infer_state [:: 7; 6] (init p)).2 = Some ll,
        size ll = 2%N
      & forall g, (g < 2)%N ->
          exp (nth 0 ll g)
          = nth 0 (prod_axis0 2
                     (likelihood_broadcast [:: 7; 6]
                        (generating_function 3 2 [:: 1; 2]) (1 / 4))) g].
Proof.
  apply: (@exp_log_likelihood_is_product
            (Build_params 3 2 (1 / 4) 4 (1 / 4) [:: 1; 2]) [:: 7; 6]).
  by rewrite /=; r_lra.
Defined.

(** X8.  Without any observation (an empty batch) the stored
    log-likelihood is zero at every grid point and, for [s_x > 0] and a
    nonempty grid, the stored posterior is the stored prior multiplied by
    one positive constant. *)
Theorem exact_posterior_without_data (p : params) :
  0 < s_x p -> x_range p <> [::] ->
  let G := size (x_range p) in
  exists (self' : t) (post pri : seq R) (c : R),
    [/\ infer_state [::] (init p) = (Ok tt, self'),
        log_likelihood self' = Some (nseq G 0),
        posterior self' = Some post /\ prior self' = Some pri,
        0 < c
      & forall i, (i < G)%N -> nth 0 post i = c * nth 0 pri i].
Proof.
  move=> Hs Hx G; have [m _ Hrun] := infer_state_run [::] Hx.
  have Hll : stored_log_likelihood p [::] = nseq G 0.
    by rewrite /stored_log_likelihood /= /gm size_map.
  eexists; exists [seq exp (v - m) | v <- stored_log_gen_model p [::]].
  exists (stored_prior p), (exp (- m)).
  split; [exact: Hrun | by rewrite /= Hll | by [] | exact: exp_pos |].
  move=> i Hi; rewrite (nth_map 0) ?size_stored_log_gen_model //.
  rewrite nth_stored_log_gen_model // Hll nth_nseq Hi.
  rewrite /stored_log_prior (nth_map 0) ?size_map //.
  have Hp : 0 < nth 0 (stored_prior p) i.
    by rewrite /stored_prior (nth_map 0) //; exact: norm_pdf_pos.
  have -> : 0 + ln (nth 0 (stored_prior p) i) - m
            = - m + ln (nth 0 (stored_prior p) i) by r_ring.
  by rewrite exp_plus exp_ln.
Qed.

Lemma exact_posterior_without_data_witness :
  let p := Build_params 3 2 (1 / 4) 4 (1 / 4) [:: 1; 2] in
  exists (self' : t) (post pri : seq R) (c : R),
    [/\ infer_state [::] (init p) = (Ok tt, self'),
        log_likelihood self' = Some (nseq 2 0),
        posterior self' = Some post /\ prior self' = Some pri,
        0 < c
      & forall i, (i < 2)%N -> nth 0 post i = c * nth 0 pri i].
Proof.
  apply: (@exact_posterior_without_data
            (Build_params 3 2 (1 / 4) 4 (1 / 4) [:: 1; 2])) => //.
  by rewrite /=; r_lra.
Defined.

(** *** The likelihood matrix, row by row *)

Lemma set_nth_cat_zeros (T : Type) (d v z : T) (s1 s2 : seq T) :
  set_nth d (s1 ++ z :: s2) (size s1) v = s1 ++ v :: s2.
Proof. by elim: s1 => [|x s1 IH] //=; rewrite IH. Qed.

Lemma likelihood_loop_rows (y mu_y : seq R) (scale : R) (n k : nat)
    (rest : seq (seq R)) :
  (k + n <= size y)%N ->
  Ch3.for_each (iota k n)
    (fun i =>
       yi <- lift (Ch3.load 0 y i) ;;
       a <- get ;;
       a' <- lift (Ch3.store [::] a i [seq norm_pdf yi m scale | m <- mu_y]) ;;
       modify (fun _ => a'))
    (likelihood_broadcast (take k y) mu_y scale
     ++ nseq n (nseq (size mu_y) 0) ++ rest)
  = (Ok tt, likelihood_broadcast (take (k + n) y) mu_y scale ++ rest).
Proof.
  elim: n k => [|n IH] k Hk; first by rewrite addn0.
  have Hky : (k < size y)%N by apply: leq_trans Hk; rewrite -addSnnS leq_addr.
  have Hsz : size (likelihood_broadcast (take k y) mu_y scale) = k.
    by rewrite /likelihood_broadcast size_map size_take Hky.
  rewrite [iota _ _]/= [Ch3.for_each _ _]/= {1}/bind.
  rewrite {1}/bind /lift /Ch3.load Hky /= {1}/bind /get /= {1}/bind.
  rewrite /Ch3.store size_cat Hsz /= -{1}(addn0 k) ltn_add2l /=.
  rewrite /modify -{3}Hsz set_nth_cat_zeros.
  have -> : likelihood_broadcast (take k y) mu_y scale
              ++ [seq norm_pdf (nth 0 y k) m scale | m <- mu_y]
                 :: nseq n (nseq (size mu_y) 0) ++ rest
            = likelihood_broadcast (take k.+1 y) mu_y scale
              ++ nseq n (nseq (size mu_y) 0) ++ rest.
    rewrite (take_nth 0 Hky) /likelihood_broadcast map_rcons.
    by rewrite -cats1 -catA.
  by rewrite IH ?addSnnS.
Qed.

Lemma for_each_cat (S : Type) (js1 js2 : seq nat) (body : nat -> py S unit)
    (a a1 : S) :
  Ch3.for_each js1 body a = (Ok tt, a1) ->
  Ch3.for_each (js1 ++ js2) body a = Ch3.for_each js2 body a1.
Proof.
  elim: js1 a => [|j js1 IH] a /=; first by rewrite /ret => - [->].
  rewrite /bind; case: (body j a) => [[[]|e] a2] //=.
  exact: IH.
Qed.

(** X9.  Filling the [N x grid_size] array of zeros row by row gives the
    array that broadcasting [norm.pdf] over the first [N] samples gives; with
    [N] the number of samples, the two statements of the notebook agree.  If
    [N] exceeds the number of samples, the loop raises [IndexError]. *)
Theorem likelihood_loop_is_broadcast (N : nat) (y mu_y : seq R) (scale : R)
    (a0 : seq (seq R)) :
  ((N <= size y)%N ->
     likelihood_loop N y mu_y scale a0
     = (Ok tt, likelihood_broadcast (take N y) mu_y scale))
  /\ ((size y < N)%N ->
       (likelihood_loop N y mu_y scale a0).1 = Raise IndexError).
Proof.
  split=> HN.
  - rewrite /likelihood_loop {1}/bind /modify.
    have := @likelihood_loop_rows y mu_y scale N 0 [::].
    by rewrite take0 add0n /= !cats0 => ->.
  - rewrite /likelihood_loop {1}/bind /modify.
    have Hsplit : iota 0 N = iota 0 (size y) ++ iota (size y) (N - size y).
      by rewrite -{2}(add0n (size y)) -iotaD subnKC // ltnW.
    have Hpad : nseq N (nseq (size mu_y) 0)
                = nseq (size y) (nseq (size mu_y) 0)
                  ++ nseq (N - size y) (nseq (size mu_y) 0).
      by rewrite -nseqD subnKC // ltnW.
    have H1 := @likelihood_loop_rows y mu_y scale (size y) 0
                 (nseq (N - size y) (nseq (size mu_y) 0)) (leqnn _).
    rewrite take0 add0n /= -Hpad in H1.
    rewrite Hsplit (for_each_cat _ H1).
    have -> : (N - size y = (N - size y).-1.+1)%N.
      by rewrite prednK // subn_gt0.
    rewrite [iota _ _]/= [Ch3.for_each _ _]/= {1}/bind.
    by rewrite {1}/bind /lift /Ch3.load ltnn.
Qed.

Lemma likelihood_loop_is_broadcast_witness :
  likelihood_loop 2 [:: 7; 6] [:: 5] (1 / 4) [::]
  = (Ok tt, likelihood_broadcast (take 2 [:: 7; 6]) [:: 5] (1 / 4))
  /\ (likelihood_loop 3 [:: 7; 6] [:: 5] (1 / 4) [::]).1 = Raise IndexError.
Proof.
  split.
  - by apply: (likelihood_loop_is_broadcast 2 [:: 7; 6] [:: 5] (1 / 4) [::]).1.
  - by apply: (likelihood_loop_is_broadcast 3 [:: 7; 6] [:: 5] (1 / 4) [::]).2.
Defined.

(** *** The root-mean-squared error *)

Lemma sq_diff_sum_sym (a b : seq R) :
  np_sum [seq (ab.1 - ab.2) ^ 2 | ab <- zip a b]
  = np_sum [seq (ab.1 - ab.2) ^ 2 | ab <- zip b a].
Proof.
  elim: a b => [|x a IH] [|z b] //.
  rewrite [zip (x :: a) _]/= [zip (z :: b) _]/= !map_cons !np_sum_cons IH /=.
  by r_ring.
Qed.

Lemma sq_diff_sum_ge0 (a b : seq R) :
  0 <= np_sum [seq (ab.1 - ab.2) ^ 2 | ab <- zip a b].
Proof.
  elim: a b => [|x a IH] [|z b]; try exact: Rle_refl.
  rewrite [zip (x :: a) _]/= map_cons np_sum_cons.
  by have := IH b; have := pow2_ge_0 (x - z) => /=; r_lra.
Qed.

Lemma sq_diff_sum_eq0 (a b : seq R) :
  size a = size b ->
  np_sum [seq (ab.1 - ab.2) ^ 2 | ab <- zip a b] = 0 -> a = b.
Proof.
  elim: a b => [|x a IH] [|z b] // [Hs].
  rewrite [zip (x :: a) _]/= map_cons np_sum_cons => H0.
  have Hx := pow2_ge_0 (x - z); have Ha := sq_diff_sum_ge0 a b.
  rewrite [(_, _).1]/= [(_, _).2]/= in H0.
  have Hxz : (x - z) ^ 2 = 0 by r_lra.
  have Hrest : np_sum [seq (ab.1 - ab.2) ^ 2 | ab <- zip a b] = 0 by r_lra.
  rewrite (IH b Hs Hrest); congr (_ :: _).
  by move: Hxz => /=; r_nra.
Qed.

(** X10.  For two arrays of the same nonzero length, [rmse] is nonnegative
    and symmetric in its arguments, it is zero on equal arrays, and it is
    zero only on equal arrays. *)
Theorem rmse_properties (y_true y_pred : seq R) :
  size y_true = size y_pred -> y_true <> [::] ->
  [/\ 0 <= rmse y_true y_pred,
      rmse y_true y_pred = rmse y_pred y_true,
      rmse y_true y_true = 0
    & rmse y_true y_pred = 0 -> y_true = y_pred].
Proof.
  move=> Hs Hne.
  have HN : 0 < INR (size (zip y_pred y_true)).
    rewrite size_zip Hs minnn -Hs; exact: size_pos_INR.
  have Hmean : forall a b : seq R, size (zip a b) = size (zip y_pred y_true) ->
      0 <= np_mean [seq (ab.1 - ab.2) ^ 2 | ab <- zip a b].
    move=> a b Hab; rewrite /np_mean size_map Hab.
    apply: Rmult_le_pos; first exact: sq_diff_sum_ge0.
    by left; apply: Rinv_0_lt_compat.
  split.
  - exact: sqrt_pos.
  - rewrite /rmse /np_mean !size_map !size_zip minnC.
    by rewrite (sq_diff_sum_sym y_pred y_true).
  - rewrite /rmse /np_mean.
    have -> : np_sum [seq (ab.1 - ab.2) ^ 2 | ab <- zip y_true y_true] = 0.
      elim: (y_true) => [|x a IH] //.
      by rewrite [zip (x :: a) _]/= map_cons np_sum_cons IH /=; r_ring.
    by rewrite /Rdiv Rmult_0_l sqrt_0.
  - move=> /sqrt_eq_0 H0; symmetry; apply: sq_diff_sum_eq0 => //.
    have := H0 (Hmean _ _ erefl); rewrite /np_mean size_map => Hm.
    have -> : np_sum [seq (ab.1 - ab.2) ^ 2 | ab <- zip y_pred y_true]
              = np_sum [seq (ab.1 - ab.2) ^ 2 | ab <- zip y_pred y_true]
                / INR (size (zip y_pred y_true))
                * INR (size (zip y_pred y_true)) by r_field; r_lra.
    by rewrite Hm; r_ring.
Qed.

Lemma rmse_properties_witness :
  [/\ 0 <= rmse [:: 1; 2] [:: 1; 3],
      rmse [:: 1; 2] [:: 1; 3] = rmse [:: 1; 3] [:: 1; 2],
      rmse [:: 1; 2] [:: 1; 2] = 0
    & rmse [:: 1; 2] [:: 1; 3] = 0 -> [:: 1; 2] = [:: 1; 3]].
Proof. exact: (@rmse_properties [:: 1; 2] [:: 1; 3]). Defined.

End Ch2_further.

(** * Further properties: the sampled point of the background notebook *)

Section Background_point.

Import Background GRing.Theory Num.Theory Order.Theory.
Local Open Scope ring_scope.

Variable F : realFieldType.

Lemma dict_get_set (d : seq (F * F)) (k v k0 : F) :
  dict_get (dict_set d k v) k0 = if k == k0 then Some v else dict_get d k0.
Proof.
  elim: d => [|[k' v'] d IH] /=; first by [].
  case: (eqVneq k' k) => [->|Hk] /=.
  - by case: (eqVneq k k0).
  - case: (eqVneq k' k0) => [Hk0|Hk0]; last exact: IH.
    by rewrite -Hk0 eq_sym (negbTE Hk).
Qed.

(** Looking a key up in [dict(zip(xs, ys))]: the value paired with the last
    occurrence of the key. *)
Lemma dict_get_zip (xs ys : seq F) (k : F) :
  size xs = size ys -> k \in xs ->
  exists i,
    [/\ (i < size xs)%N, nth 0 xs i = k,
        forall j, (i < j < size xs)%N -> nth 0 xs j != k
      & dict_get (dict_of (zip xs ys)) k = Some (nth 0 ys i)].
Proof.
  elim/last_ind: xs ys => [|xs x IH] ys // Hs Hk.
  case/lastP: ys Hs => [|ys v] Hs; first by rewrite size_rcons in Hs.
  move: Hs; rewrite !size_rcons => - [Hs].
  have Hz : zip (rcons xs x) (rcons ys v) = rcons (zip xs ys) (x, v).
    by rewrite -!cats1 zip_cat.
  have Hd : dict_get (dict_of (zip (rcons xs x) (rcons ys v))) k
            = if x == k then Some v else dict_get (dict_of (zip xs ys)) k.
    by rewrite /dict_of Hz -cats1 foldl_cat /= dict_get_set.
  case: (eqVneq x k) Hd => [Hx|Hx] Hd.
  - exists (size xs); split=> //.
    + by rewrite nth_rcons ltnn eqxx.
    + by move=> j /andP [H1 H2]; move: (leq_trans H1 H2); rewrite ltnn.
    + by rewrite Hd nth_rcons Hs ltnn eqxx.
  - have Hk' : k \in xs.
      by move: Hk; rewrite mem_rcons inE eq_sym (negbTE Hx).
    have [i [Hi Hxi Hlast Hget]] := IH ys Hs Hk'.
    exists i; split.
    + exact: leq_trans Hi (leqnSn _).
    + by rewrite nth_rcons Hi.
    + move=> j /andP [Hij]; rewrite ltnS leq_eqVlt => /orP [/eqP ->|Hj].
        by rewrite nth_rcons ltnn eqxx.
      by rewrite nth_rcons Hj; apply: Hlast; rewrite Hij.
    + by rewrite Hd nth_rcons -Hs Hi; exact: Hget.
Qed.

(** X11.  When the number of sampled states is odd, their median is one of
    them, so the lookup of the median in [dict(zip(x_star, y))] does not
    fail: it returns the observation of the last sample whose state is the
    median. *)
Theorem point_y_of_odd_sample (x_star y : seq F) :
  size x_star = size y -> odd (size x_star) ->
  exists i,
    [/\ (i < size x_star)%N,
        nth 0 x_star i = np_median x_star,
        forall j, (i < j < size x_star)%N -> nth 0 x_star j != np_median x_star
      & point_y x_star y = Some (nth 0 y i)].
Proof.
  move=> Hs Hodd; apply: dict_get_zip => //.
  rewrite /np_median Hodd -(mem_sort <=%O); apply: mem_nth.
  rewrite size_sort -divn2; apply: ltn_Pdiv => //.
  by case: (size x_star) Hodd.
Qed.

End Background_point.

Section Background_instance.

Import Background GRing.Theory Num.Theory.
Local Open Scope ring_scope.

Lemma point_y_of_odd_sample_witness :
  exists i,
    [/\ (i < 3)%N,
        nth 0 [:: 3%:R; 1; 2%:R] i = np_median [:: 3%:R; 1; 2%:R : rat],
        forall j, (i < j < 3)%N ->
          nth 0 [:: 3%:R; 1; 2%:R] j != np_median [:: 3%:R; 1; 2%:R : rat]
      & point_y [:: 3%:R; 1; 2%:R] [:: 30%:R; 10%:R; 20%:R : rat]
        = Some (nth 0 [:: 30%:R; 10%:R; 20%:R] i)].
Proof.
  have H := @point_y_of_odd_sample rat [:: 3%:R; 1; 2%:R]
              [:: 30%:R; 10%:R; 20%:R] erefl isT.
  exact: H.
Defined.

End Background_instance.

(** * Further properties of the regression agent *)

Section Ch3_regression_further.

Import Ch3 GRing.Theory Num.Theory Order.Theory.
Local Open Scope ring_scope.

Variable F : realFieldType.
Variable pinv : forall m n : nat, 'M[F]_(m, n) -> 'M[F]_(n, m).
Variable c : nat.

Import MultipleLinearRegressionAgent.

(** X12.  [predict] never changes [theta], and it raises [AttributeError]
    exactly when no parameters have been learned yet, the agent being then
    as before the call; otherwise it returns and the attribute [y_pred] then
    holds [X @ theta] for the augmented test matrix [X]. *)
Theorem predict_needs_parameters
    (self : t F c) (k : nat) (X_test : 'M[F]_(k, c)) :
  [/\ theta (predict X_test self).2 = theta self,
      (predict X_test self).1 = Raise AttributeError <-> theta self = None,
      theta self = None -> (predict X_test self).2 = self
    & forall th, theta self = Some th ->
        (predict X_test self).1 = Ok tt /\
        y_pred (predict X_test self).2
        = Some (existT (fun k' => 'cV[F]_k') k
                  (build_data_matrix X_test *m th))].
Proof.
  rewrite /predict /_generating_function /bind /get /ret /raise /modify /=.
  case: self => [[th|] yp] /=; split=> //.
  - by move=> th0 [<-].
Qed.

(** X13.  Data that are exactly linear are learned exactly: when the
    augmented matrix [X] has full column rank and the targets are
    [X @ theta0], [learn_parameters] returns and the attribute [theta] then
    holds [theta0]; [predict] on the training states then returns, and the
    attribute [y_pred] holds the targets. *)
Theorem learn_parameters_recovers_exact_data
    (n : nat) (X_star : 'M[F]_(n, c)) (theta0 : 'cV[F]_(1 + c)) :
  let X := build_data_matrix X_star in
  let fitted := (learn_parameters pinv X_star (X *m theta0) (init F c)).2 in
  \rank X = (1 + c)%N -> penrose X (pinv X) ->
  [/\ (learn_parameters pinv X_star (X *m theta0) (init F c)).1 = Ok tt,
      theta fitted = Some theta0,
      (predict X_star fitted).1 = Ok tt
    & y_pred (predict X_star fitted).2
      = Some (existT (fun k' => 'cV[F]_k') n (X *m theta0))].
Proof.
  move=> X fitted Hr Hp.
  have Hth : mle_theta pinv X (X *m theta0) = theta0.
    rewrite /mle_theta (pinv_normal_equation Hr Hp) -mulmxA.
    by rewrite [X^T *m (X *m _)]mulmxA mulKmx // gram_unit.
  have Hfit : theta fitted = Some theta0.
    by rewrite /fitted /learn_parameters /modify /= -/X Hth.
  split=> //.
  by rewrite /predict /_generating_function /bind /get /ret /modify /=
       -/X Hth.
Qed.

(** X14.  With a full-column-rank augmented matrix, the residuals of the
    learned parameters on the training data sum to zero and are orthogonal
    to every feature column. *)
Theorem residuals_of_fit
    (n : nat) (X_star : 'M[F]_(n, c)) (y : 'cV[F]_n) :
  let X := build_data_matrix X_star in
  let y_hat := X *m mle_theta pinv X y in
  \rank X = (1 + c)%N -> penrose X (pinv X) ->
  \sum_i (y_hat i 0 - y i 0) = 0 /\ X_star^T *m (y_hat - y) = 0.
Proof.
  move=> X y_hat Hr Hp.
  have H0 : X^T *m (y_hat - y) = 0.
    rewrite /y_hat /mle_theta (pinv_normal_equation Hr Hp).
    exact: normal_equation_orth.
  move: H0; rewrite /X /build_data_matrix /insert_ones tr_row_mx mul_col_mx.
  move=> /eqP; rewrite col_mx_eq0 => /andP [/eqP H1 /eqP H2]; split=> //.
  have -> : \sum_i (y_hat i 0 - y i 0)
            = ((const_mx 1 : 'cV[F]_n)^T *m (y_hat - y)) 0 0.
    by rewrite mxE; apply: eq_bigr => i _; rewrite !mxE mul1r.
  by rewrite H1 mxE.
Qed.

End Ch3_regression_further.

(** * Further properties of the EM agent *)

Section Ch3_EM_further.

Import Ch3 GRing.Theory Num.Theory Order.Theory.
Local Open Scope ring_scope.

Variable F : realFieldType.
Variables (C D N : nat).
Variable Y : 'M[F]_(D, N).

Import FactorAnalysisEMAgent.

(** X15.  [__init__] with [J = 0] raises [IndexError] (there is no cell [0]
    for the initial parameters); with [J > 0] it returns an agent whose
    parameter arrays hold the initial values in cell [0] and zeros in the
    [J - 1] other cells, and whose posterior arrays are [J] zeros. *)
Theorem em_init_cells (p : params F C D) :
  (J p = 0%N -> init N p = Raise IndexError) /\
  ((0 < J p)%N ->
   exists self0 : t F C D N,
     [/\ init N p = Ok self0,
         Theta self0 = Theta_init p :: nseq (J p).-1 0,
         cov_y self0 = cov_y_init p :: nseq (J p).-1 0,
         posterior_mean self0 = nseq (J p) 0
       & posterior_cov self0 = nseq (J p) 0]).
Proof.
  split=> [H0|HJ]; first by rewrite /init /store /= size_nseq H0.
  rewrite /init /store /= !size_nseq HJ.
  eexists; split; first by reflexivity.
  - by rewrite /=; case: (J p) HJ.
  - by rewrite /=; case: (J p) HJ.
  - by [].
  - by [].
Qed.

Lemma infer_states_singular (self : t F C D N) (j : nat) :
  (j < size (Theta self))%N -> (j < size (cov_y self))%N ->
  nth 0 (Theta self) j *m (nth 0 (Theta self) j)^T + nth 0 (cov_y self) j
    \notin unitmx ->
  _infer_states Y j self = (Raise LinAlgError, self).
Proof.
  move=> H1 H2 Hu.
  rewrite /_infer_states /bind /get /lift /= !load_ok //.
  by rewrite /np_inv (negbTE Hu).
Qed.

(** X16.  If the matrix inverted by the first E-step,
    [Theta_init @ Theta_init^T + cov_y_init], is singular, [run_EM] raises
    [LinAlgError] having stored only the sample covariance [S]: no
    per-iteration cell has been written. *)
Theorem run_EM_singular_start (p : params F C D) (self0 : t F C D N) :
  init N p = Ok self0 ->
  Theta_init p *m (Theta_init p)^T + cov_y_init p \notin unitmx ->
  run_EM Y self0 = (Raise LinAlgError, set_S (np_cov Y) self0).
Proof.
  move=> Hinit Hu.
  have HJ : (0 < J p)%N.
    by move: Hinit; rewrite /init /store /= !size_nseq; case: (0 < J p)%N.
  have [self1 Hinit1 [[Hp _] [_ _ S3 S4] Hpar _]] := em_init Y HJ.
  move: Hinit1; rewrite Hinit => - [Hself]; rewrite -Hself in Hp S3 S4 Hpar.
  have [HT0 Hc0] := Hpar 0%N (leqnn _) HJ.
  rewrite run_EM_unfold; rewrite /= in Hp; rewrite Hp.
  have -> : iota 0 (J p) = 0%N :: iota 1 (J p).-1 by case: (J p) HJ.
  rewrite [for_each _ _]/= {1}/bind {1}/bind.
  rewrite infer_states_singular //= ?S3 ?S4 //.
  by rewrite HT0 Hc0.
Qed.

(** The posterior covariance of an E-step is symmetric when the noise
    covariance is. *)
Lemma em_posterior_cov_sym (Th : 'M[F]_(D, C)) (cy : 'M[F]_D) :
  cy^T = cy -> (em_posterior_cov Th cy)^T = em_posterior_cov Th cy.
Proof.
  move=> Hcy; rewrite /em_posterior_cov /em_beta.
  rewrite [(_ - _)^T]linearB /= trmx1 !trmx_mul trmxK trmx_inv.
  by rewrite [(_ + _)^T]linearD /= trmx_mul trmxK Hcy mulmxA.
Qed.

Lemma diag_diag_sym (n : nat) (A : 'M[F]_n) : (diag_diag A)^T = diag_diag A.
Proof. by rewrite /diag_diag tr_diag_mx. Qed.

(** The mean over the samples commutes with a matrix applied to every
    sample. *)
Lemma np_mean_axis1_mul (B : 'M[F]_(C, D)) :
  np_mean_axis1 (B *m Y) = B *m np_mean_axis1 Y.
Proof.
  apply/matrixP => i j; rewrite !mxE ord1.
  have -> : \sum_k (B *m Y) i k = \sum_l B i l * \sum_k Y l k.
    under eq_bigr => k _ do rewrite mxE.
    rewrite exchange_big /=; apply: eq_bigr => l _.
    by rewrite mulr_sumr.
  rewrite mulr_suml; apply: eq_bigr => l _.
  by rewrite !mxE mulrA.
Qed.

(** The state a successful run leaves. *)
Lemma run_EM_state (p : params F C D) :
  (0 < J p)%N ->
  em_invertible Y (Theta_init p) (cov_y_init p) (J p) ->
  exists self0 self' : t F C D N,
    [/\ init N p = Ok self0, run_EM Y self0 = (Ok tt, self')
      & em_state_upto Y p (J p) self'].
Proof.
  move=> HJ Hinv.
  have [self0 Hinit Hst0] := em_init Y HJ.
  have Hp0 : prm self0 = p by case: Hst0 => [[]].
  have [self' Hrun Hst] := em_loop (add0n (J p)) Hinv Hst0.
  by exists self0, self'; split=> //; rewrite run_EM_unfold Hp0.
Qed.

(** X17.  After a run of [run_EM] the posterior covariance of every
    iteration [j >= 1] is a symmetric matrix, and so is that of iteration
    [0] when the initial noise covariance is symmetric. *)
Theorem em_posterior_cov_symmetric (p : params F C D) :
  (0 < J p)%N ->
  em_invertible Y (Theta_init p) (cov_y_init p) (J p) ->
  exists self0 self' : t F C D N,
    [/\ init N p = Ok self0, run_EM Y self0 = (Ok tt, self')
      & forall j, (j < J p)%N ->
          (j = 0%N -> (cov_y_init p)^T = cov_y_init p) ->
          (nth 0 (posterior_cov self') j)^T = nth 0 (posterior_cov self') j].
Proof.
  move=> HJ Hinv.
  have [self0 [self' [Hinit Hrun [_ _ _ Hpost]]]] := run_EM_state HJ Hinv.
  exists self0, self'; split=> // j Hj H0.
  have [-> _] := Hpost j Hj Hj.
  apply: em_posterior_cov_sym.
  case: j {Hj} H0 => [|j] H0; first exact: H0.
  by rewrite /em_params iterS /em_next /= diag_diag_sym.
Qed.

(** X18.  When every channel of [Y] has mean zero over the samples (the
    notebook standardises its data), the averaged posterior mean that
    [run_EM] stores is the zero vector at every iteration. *)
Theorem em_posterior_mean_of_centred_data (p : params F C D) :
  (0 < J p)%N ->
  em_invertible Y (Theta_init p) (cov_y_init p) (J p) ->
  (forall i, \sum_k Y i k = 0) ->
  exists self0 self' : t F C D N,
    [/\ init N p = Ok self0, run_EM Y self0 = (Ok tt, self')
      & forall j, (j < J p)%N -> nth 0 (posterior_mean self') j = 0].
Proof.
  move=> HJ Hinv Hc.
  have [self0 [self' [Hinit Hrun [_ _ _ Hpost]]]] := run_EM_state HJ Hinv.
  exists self0, self'; split=> // j Hj.
  have [_ ->] := Hpost j Hj Hj.
  rewrite /em_posterior_mean_s np_mean_axis1_mul.
  have -> : np_mean_axis1 Y = 0.
    by apply/matrixP => i k; rewrite !mxE Hc mul0r.
  by rewrite mulmx0.
Qed.

(** X19.  Running [run_EM] a second time on the same data returns again and
    leaves the four per-iteration arrays exactly as the first run left
    them. *)
Theorem run_EM_twice (p : params F C D) :
  (0 < J p)%N ->
  em_invertible Y (Theta_init p) (cov_y_init p) (J p) ->
  exists self0 self' self'' : t F C D N,
    [/\ init N p = Ok self0, run_EM Y self0 = (Ok tt, self'),
        run_EM Y self' = (Ok tt, self'')
      & [/\ Theta self'' = Theta self', cov_y self'' = cov_y self',
            posterior_mean self'' = posterior_mean self'
          & posterior_cov self'' = posterior_cov self']].
Proof.
  move=> HJ Hinv.
  have [self0 [self' [Hinit Hrun Hst]]] := run_EM_state HJ Hinv.
  have [[Hp HS] [S1 S2 S3 S4] Hpar Hpost] := Hst.
  have Hst0 : em_state_upto Y p 0 (set_S (np_cov Y) self').
    split=> //= j; rewrite leqn0 => /eqP -> H0.
    exact: Hpar.
  have [self'' Hrun2 [[_ _] [T1 T2 T3 T4] Hpar2 Hpost2]] :=
    em_loop (add0n (J p)) Hinv Hst0.
  exists self0, self', self''; split=> //; first by rewrite run_EM_unfold Hp.
  split.
  - apply: (@eq_from_nth _ 0); rewrite T3 ?S3 // => j Hj.
    have [-> _] := Hpar2 j (ltnW Hj) Hj.
    by have [-> _] := Hpar j (ltnW Hj) Hj.
  - apply: (@eq_from_nth _ 0); rewrite T4 ?S4 // => j Hj.
    have [_ ->] := Hpar2 j (ltnW Hj) Hj.
    by have [_ ->] := Hpar j (ltnW Hj) Hj.
  - apply: (@eq_from_nth _ 0); rewrite T1 ?S1 // => j Hj.
    have [_ ->] := Hpost2 j Hj Hj.
    by have [_ ->] := Hpost j Hj Hj.
  - apply: (@eq_from_nth _ 0); rewrite T2 ?S2 // => j Hj.
    have [-> _] := Hpost2 j Hj Hj.
    by have [-> _] := Hpost j Hj Hj.
Qed.

End Ch3_EM_further.

(** * Further properties of the linear-Gaussian agent *)

Section Ch3_linear_gaussian_further.

Import Ch3 GRing.Theory Num.Theory Order.Theory.
Local Open Scope ring_scope.

Variable F : realFieldType.
Variables (C : nat) (Grid P : Type).
Variable mvn_pdf : Grid -> 'cV[F]_C -> 'M[F]_C -> result P.

Import FactorAnalysisAgent.

(** X20.  If one of the three matrices that [infer_states] inverts is
    singular, the call raises [LinAlgError] and no attribute of the agent
    has been written. *)
Theorem fa_infer_states_singular
    (p : params F C Grid) (n : nat) (y : 'M[F]_(n, C)) :
  [|| cov_x p \notin unitmx, cov_y p \notin unitmx
    | invmx (cov_x p) + (N p)%:R *: invmx (cov_y p) \notin unitmx] ->
  infer_states mvn_pdf y (init P p) = (Raise LinAlgError, init P p).
Proof.
  rewrite /infer_states /bind /get /lift /modify /= /np_inv.
  case Hx: (cov_x p \in unitmx) => //=.
  case Hy: (cov_y p \in unitmx) => //=.
  by case: (_ \in unitmx).
Qed.

(** X21.  When the three inversions succeed: symmetric [cov_x] and [cov_y]
    give a symmetric posterior covariance, and a prior mean equal to the
    mean of the batch is returned unchanged as posterior mean, whatever
    [N] and the covariances are. *)
Theorem fa_posterior_symmetry_and_fixed_point
    (p : params F C Grid) (n : nat) (y : 'M[F]_(n, C)) :
  cov_x p \in unitmx -> cov_y p \in unitmx ->
  invmx (cov_x p) + (N p)%:R *: invmx (cov_y p) \in unitmx ->
  exists (Sigma : 'M[F]_C) (mu : 'cV[F]_C),
    [/\ cov_posterior (infer_states mvn_pdf y (init P p)).2 = Some Sigma,
        mean_posterior (infer_states mvn_pdf y (init P p)).2 = Some mu,
        (cov_x p)^T = cov_x p -> (cov_y p)^T = cov_y p -> Sigma^T = Sigma
      & mu_x p = sample_mean y -> mu = mu_x p].
Proof.
  move=> Hx Hy Hs.
  have [Ex _] := np_inv_unit Hx.
  have [Ey _] := np_inv_unit Hy.
  have [Es _] := np_inv_unit Hs.
  set Sigma := invmx (invmx (cov_x p) + (N p)%:R *: invmx (cov_y p)).
  exists Sigma.
  exists (Sigma *m (invmx (cov_y p) *m ((N p)%:R *: sample_mean y)
                    + invmx (cov_x p) *m mu_x p)).
  have Hrun : forall r s, infer_states mvn_pdf y (init P p) = (r, s) ->
      cov_posterior s = Some Sigma /\
      mean_posterior s
      = Some (Sigma *m (invmx (cov_y p) *m ((N p)%:R *: sample_mean y)
                        + invmx (cov_x p) *m mu_x p)).
    move=> r s.
    rewrite /infer_states /bind /get /lift /modify /= Ex Ey Es /=.
    rewrite np_mean_axis0_sample_mean -/Sigma.
    by case: (mvn_pdf _ _ _) => [v|e] /= [_ <-].
  have [H1 H2] := Hrun _ _ (surjective_pairing _).
  split=> //.
  - move=> Sx Sy; rewrite /Sigma trmx_inv [(_ + _)^T]linearD /=.
    by rewrite [(_ *: _)^T]linearZ /= !trmx_inv Sx Sy.
  - move=> Hm; rewrite -Hm -scalemxAr scalemxAl -mulmxDl addrC.
    by rewrite /Sigma mulKmx.
Qed.

End Ch3_linear_gaussian_further.

(** * Further properties of the vector environment *)

Section Ch3_sampling.

Import Ch3 Ch3b GRing.Theory Num.Theory Order.Theory.
Local Open Scope ring_scope.

Variable F : realFieldType.
Variables (C D : nat).
Variable mvn_rvs : nat -> forall d : nat, 'M[F]_d -> 'cV[F]_d.

Lemma generate_batch_rows (env : StaticEnvironment.t F C D)
    (x_star : 'cV[F]_C) (g n k : nat) (rest : seq 'cV[F]_D) :
  let sample := fun i =>
    sample_at mvn_rvs (StaticEnvironment.prm env) x_star (g + 2 * i)%N in
  for_each (iota k n)
    (fun idx =>
       v <- on_env (StaticEnvironment.generate mvn_rvs x_star) ;;
       s <- get ;;
       a <- lift (store 0 s.2 idx v) ;;
       modify (fun s' => (s'.1, a)))
    ((env, (g + 2 * k)%N), mkseq sample k ++ nseq n 0 ++ rest)
  = (Ok tt, ((env, (g + 2 * (k + n))%N), mkseq sample (k + n)%N ++ rest)).
Proof.
  move=> sample; set body := (fun idx : nat => _).
  elim: n k => [|n IH] k; first by rewrite !addn0.
  rewrite [iota _ _]/= [for_each _ _]/= {1}/bind.
  have -> : body k (env, (g + 2 * k)%N,
                    mkseq sample k ++ nseq n.+1 0 ++ rest)
            = (Ok tt, (env, (g + 2 * k.+1)%N,
                       mkseq sample k.+1 ++ nseq n 0 ++ rest)).
    rewrite mkseqS -cats1 -catA mulnS addnCA.
    rewrite /body /bind /on_env /get /lift /store /modify /=.
    rewrite size_cat size_mkseq -{1}(addn0 k) ltn_add2l /=.
    by rewrite -{3}(size_mkseq sample k) set_nth_cat_zeros.
  by rewrite IH addSnnS.
Qed.

(** X22.  The sampling cell fills [y] with [N] observations of the same
    state, the observation of index [idx] being built from the draws number
    [2 idx] and [2 idx + 1] counted from the start of the cell: no draw
    serves two observations, [2 N] draws are consumed, and the environment
    is the same afterwards. *)
Theorem generate_batch_samples (env : StaticEnvironment.t F C D)
    (x_star : 'cV[F]_C) (N g : nat) (y0 : seq 'cV[F]_D) :
  generate_batch mvn_rvs N x_star ((env, g), y0)
  = (Ok tt,
     ((env, (g + 2 * N)%N),
      mkseq (fun idx =>
               sample_at mvn_rvs (StaticEnvironment.prm env) x_star
                 (g + 2 * idx)%N) N)).
Proof.
  rewrite /generate_batch {1}/bind /modify /=.
  have := @generate_batch_rows env x_star g N 0 [::].
  by rewrite /= muln0 addn0 add0n !cats0.
Qed.

End Ch3_sampling.

(** * Instances of the further chapter 3 properties *)

Section Ch3_further_instances.

Import Ch3 Ch3b GRing.Theory Num.Theory.
Local Open Scope ring_scope.

Lemma learn_parameters_recovers_exact_data_witness :
  let X := MultipleLinearRegressionAgent.build_data_matrix two_samples in
  let theta0 : 'cV[rat]_(1 + 1) := const_mx 1 in
  let fitted :=
    (MultipleLinearRegressionAgent.learn_parameters (@normal_pinv rat)
       two_samples (X *m theta0)
       (MultipleLinearRegressionAgent.init rat 1)).2 in
  [/\ (MultipleLinearRegressionAgent.learn_parameters (@normal_pinv rat)
         two_samples (X *m theta0)
         (MultipleLinearRegressionAgent.init rat 1)).1 = Ok tt,
      MultipleLinearRegressionAgent.theta fitted = Some theta0,
      (MultipleLinearRegressionAgent.predict two_samples fitted).1 = Ok tt
    & MultipleLinearRegressionAgent.y_pred
        (MultipleLinearRegressionAgent.predict two_samples fitted).2
      = Some (existT (fun k' => 'cV[rat]_k') 2 (X *m theta0))].
Proof.
  apply: (@learn_parameters_recovers_exact_data rat (@normal_pinv rat) 1 2
            two_samples (const_mx 1)).
  - exact: rank_two_samples.
  - exact: penrose_normal_pinv rank_two_samples.
Defined.

Lemma residuals_of_fit_witness :
  let X := MultipleLinearRegressionAgent.build_data_matrix two_samples in
  let y : 'cV[rat]_2 := const_mx 1 in
  let y_hat :=
    X *m MultipleLinearRegressionAgent.mle_theta (@normal_pinv rat) X y in
  \sum_i (y_hat i 0 - y i 0) = 0 /\ two_samples^T *m (y_hat - y) = 0.
Proof.
  apply: (@residuals_of_fit rat (@normal_pinv rat) 1 2 two_samples
            (const_mx 1)).
  - exact: rank_two_samples.
  - exact: penrose_normal_pinv rank_two_samples.
Defined.

(** Every inversion of two iterations on [two_ones] from unit parameters
    succeeds. *)
Lemma em_invertible_two_ones :
  em_invertible two_ones (1%:M : 'M[rat]_1) (1%:M : 'M[rat]_1) 2.
Proof.
  have [Hg0 Hn0] := em_next_scalar 1 1.
  case=> [|[|j]] // _.
  - have -> : em_params two_ones (1%:M : 'M[rat]_1) (1%:M : 'M[rat]_1) 0
              = (1%:M, 1%:M) by [].
    split; first by rewrite /= tr_scalar_mx -scalar_mxM scalar_mx_add;
                    apply: scalar_unit.
    by move=> _; rewrite Hg0; apply: scalar_unit.
  - have -> : em_params two_ones (1%:M : 'M[rat]_1) (1%:M : 'M[rat]_1) 1
              = em_next two_ones (1%:M, 1%:M) by [].
    rewrite Hn0; split=> //.
    by rewrite /= tr_scalar_mx -scalar_mxM scalar_mx_add; apply: scalar_unit.
Qed.

Lemma em_invertible_centred_pair :
  em_invertible centred_pair (1%:M : 'M[rat]_1) (1%:M : 'M[rat]_1) 1.
Proof.
  case=> [|j] // _.
  have -> : em_params centred_pair (1%:M : 'M[rat]_1) (1%:M : 'M[rat]_1) 0
            = (1%:M, 1%:M) by [].
  split=> //.
  by rewrite /= tr_scalar_mx -scalar_mxM scalar_mx_add; apply: scalar_unit.
Qed.

Lemma centred_pair_sums (i : 'I_1) : \sum_k centred_pair i k = 0.
Proof. by rewrite big_ord_recl big_ord1 !mxE /=; apply/eqP. Qed.

Lemma run_EM_singular_start_witness :
  let p := FactorAnalysisEMAgent.Build_params 1 (0 : 'M[rat]_1)
             (0 : 'M[rat]_1) in
  exists self0 : FactorAnalysisEMAgent.t rat 1 1 2,
    FactorAnalysisEMAgent.init 2 p = Ok self0 /\
    FactorAnalysisEMAgent.run_EM two_ones self0
    = (Raise LinAlgError,
       FactorAnalysisEMAgent.set_S (np_cov two_ones) self0).
Proof.
  move=> p.
  have [self0 H0] :
      exists s : FactorAnalysisEMAgent.t rat 1 1 2,
        FactorAnalysisEMAgent.init 2 p = Ok s.
    by eexists; reflexivity.
  exists self0; split=> //.
  apply: (@run_EM_singular_start rat 1 1 2 two_ones p self0 H0).
  by rewrite /= mul0mx addr0 unitmxE det0 unitr0.
Defined.

Lemma em_posterior_cov_symmetric_witness :
  let p := FactorAnalysisEMAgent.Build_params 2 (1%:M : 'M[rat]_1)
             (1%:M : 'M[rat]_1) in
  exists self0 self' : FactorAnalysisEMAgent.t rat 1 1 2,
    [/\ FactorAnalysisEMAgent.init 2 p = Ok self0,
        FactorAnalysisEMAgent.run_EM two_ones self0 = (Ok tt, self')
      & forall j, (j < 2)%N ->
          (j = 0%N -> (1%:M : 'M[rat]_1)^T = 1%:M) ->
          (nth 0 (FactorAnalysisEMAgent.posterior_cov self') j)^T
          = nth 0 (FactorAnalysisEMAgent.posterior_cov self') j].
Proof.
  apply: (@em_posterior_cov_symmetric rat 1 1 2 two_ones
            (FactorAnalysisEMAgent.Build_params 2 (1%:M : 'M[rat]_1)
               (1%:M : 'M[rat]_1))).
  - by [].
  - exact: em_invertible_two_ones.
Defined.

Lemma em_posterior_mean_of_centred_data_witness :
  let p := FactorAnalysisEMAgent.Build_params 1 (1%:M : 'M[rat]_1)
             (1%:M : 'M[rat]_1) in
  exists self0 self' : FactorAnalysisEMAgent.t rat 1 1 2,
    [/\ FactorAnalysisEMAgent.init 2 p = Ok self0,
        FactorAnalysisEMAgent.run_EM centred_pair self0 = (Ok tt, self')
      & forall j, (j < 1)%N ->
          nth 0 (FactorAnalysisEMAgent.posterior_mean self') j = 0].
Proof.
  apply: (@em_posterior_mean_of_centred_data rat 1 1 2 centred_pair
            (FactorAnalysisEMAgent.Build_params 1 (1%:M : 'M[rat]_1)
               (1%:M : 'M[rat]_1))).
  - by [].
  - exact: em_invertible_centred_pair.
  - exact: centred_pair_sums.
Defined.

Lemma run_EM_twice_witness :
  let p := FactorAnalysisEMAgent.Build_params 2 (1%:M : 'M[rat]_1)
             (1%:M : 'M[rat]_1) in
  exists self0 self' self'' : FactorAnalysisEMAgent.t rat 1 1 2,
    [/\ FactorAnalysisEMAgent.init 2 p = Ok self0,
        FactorAnalysisEMAgent.run_EM two_ones self0 = (Ok tt, self'),
        FactorAnalysisEMAgent.run_EM two_ones self' = (Ok tt, self'')
      & [/\ FactorAnalysisEMAgent.Theta self''
            = FactorAnalysisEMAgent.Theta self',
            FactorAnalysisEMAgent.cov_y self''
            = FactorAnalysisEMAgent.cov_y self',
            FactorAnalysisEMAgent.posterior_mean self''
            = FactorAnalysisEMAgent.posterior_mean self'
          & FactorAnalysisEMAgent.posterior_cov self''
            = FactorAnalysisEMAgent.posterior_cov self']].
Proof.
  apply: (@run_EM_twice rat 1 1 2 two_ones
            (FactorAnalysisEMAgent.Build_params 2 (1%:M : 'M[rat]_1)
               (1%:M : 'M[rat]_1))).
  - by [].
  - exact: em_invertible_two_ones.
Defined.

Lemma fa_infer_states_singular_witness :
  let p := FactorAnalysisAgent.Build_params
             (0 : 'M[rat]_2) 1%:M 0 tt 2 in
  let y : 'M[rat]_(2, 2) := 0 in
  FactorAnalysisAgent.infer_states (fun _ _ _ => Ok tt) y
    (FactorAnalysisAgent.init unit p)
  = (Raise LinAlgError, FactorAnalysisAgent.init unit p).
Proof.
  apply: (@fa_infer_states_singular rat 2 unit unit (fun _ _ _ => Ok tt)
            (FactorAnalysisAgent.Build_params
               (0 : 'M[rat]_2) 1%:M 0 tt 2) 2 0).
  by rewrite /= unitmxE det0 unitr0.
Defined.

Lemma fa_posterior_symmetry_and_fixed_point_witness :
  let p := FactorAnalysisAgent.Build_params
             (1%:M : 'M[rat]_2) 1%:M 0 tt 2 in
  let y : 'M[rat]_(2, 2) := 0 in
  exists (Sigma : 'M[rat]_2) (mu : 'cV[rat]_2),
    [/\ FactorAnalysisAgent.cov_posterior
          (FactorAnalysisAgent.infer_states (fun _ _ _ => Ok tt) y
             (FactorAnalysisAgent.init unit p)).2 = Some Sigma,
        FactorAnalysisAgent.mean_posterior
          (FactorAnalysisAgent.infer_states (fun _ _ _ => Ok tt) y
             (FactorAnalysisAgent.init unit p)).2 = Some mu,
        (FactorAnalysisAgent.cov_x p)^T = FactorAnalysisAgent.cov_x p ->
        (FactorAnalysisAgent.cov_y p)^T = FactorAnalysisAgent.cov_y p ->
        Sigma^T = Sigma
      & FactorAnalysisAgent.mu_x p = sample_mean y ->
        mu = FactorAnalysisAgent.mu_x p].
Proof.
  apply: (@fa_posterior_symmetry_and_fixed_point rat 2 unit unit
            (fun _ _ _ => Ok tt)
            (FactorAnalysisAgent.Build_params
               (1%:M : 'M[rat]_2) 1%:M 0 tt 2) 2 0).
  - exact: unitmx1.
  - exact: unitmx1.
  - by rewrite /= invmx1 scalemx1 scalar_mx_add; apply: scalar_unit.
Defined.

End Ch3_further_instances.
